(** * ipydebug: tagged breakpoints that drop into an IPython console

    A shallow embedding of [ipydebug/core.py]: the module globals
    [active_breakpoints] and [func_breakpoints], the class [Breakpoint]
    with its method [break_here], and the decorator class
    [func_breakpoint].

    Conventions of the embedding.
    - Python integers are unbounded, so [breaks] and [max_usage] are [Z];
      [max_usage = None] is [None].
    - Module globals are threaded explicitly; instances live in a heap
      indexed by addresses, so that two names for one instance share its
      counter.  A list kept by reference ([self.tags], the stored
      arguments of a decorator) is a [list_ref]: a list of the client's
      or the global list itself, read when it is used.
    - Logging, the IPython console and [sys.exit] are recorded: a call of
      [break_here] yields the list of events it emitted, in order, and the
      way it ended.
    - Whether [import IPython] succeeds is a parameter of [break_here]. *)

From Stdlib Require Import ZArith Lia Ascii.
From stdpp Require Import base option list strings gmap.

Set Warnings "-register-all,-clear-no-such-hyp,-uniform-inheritance".

Open Scope Z_scope.

Module core.

(** ** Python values that appear in frames *)

Definition addr := nat.

Inductive value :=
  | VNone
  | VBool (b : bool)
  | VInt (n : Z)
  | VStr (s : string)
  | VTuple (items : list value)
  | VDict (entries : list (string * value))
  | VFunction (name : string)
  | VRef (a : addr).

(** A dictionary with string keys, in insertion order. *)
Abbreviation dict := (list (string * value)).

Fixpoint dict_get (k : string) (d : dict) : option value :=
  match d with
  | [] => None
  | (k', v) :: d' => if decide (k = k') then Some v else dict_get k d'
  end.

(** [d[k] = v]: an existing key keeps its place, a new one goes last. *)
Fixpoint dict_set (k : string) (v : value) (d : dict) : dict :=
  match d with
  | [] => [(k, v)]
  | (k', v') :: d' =>
      if decide (k = k') then (k, v) :: d' else (k', v') :: dict_set k v d'
  end.

Definition dict_del (k : string) (d : dict) : dict :=
  filter (λ kv, kv.1 ≠ k) d.

Definition dict_keys (d : dict) : list string := d.*1.

(** ** The [log] argument of a Breakpoint

    [break_here] tells a function object ([inspect.isfunction]: a [def] or
    a [lambda]) from everything else.  A string is the documented other
    case; a callable that is no function object (a bound method, a
    [functools.partial], an instance with [__call__]) is a third. *)

Inductive log_directive :=
  | LogStr (s : string)
  | LogFunction (f : dict → string)
  | LogCallable (f : dict → string).

Definition callable (d : log_directive) : bool :=
  match d with LogStr _ => false | _ => true end.

(** What [logging.debug] receives: a text, or an object it will format. *)
Inductive logged :=
  | Text (s : string)
  | Object (d : log_directive).

Definition as_logged (d : log_directive) : logged :=
  match d with
  | LogStr s => Text s
  | _ => Object d
  end.

(** ** Events and outcomes of a call *)

Inductive event :=
  | Debug (m : logged)          (* logging.debug(m) *)
  | Warning (text : string)     (* logging.warning(text) *)
  | Embed.                      (* IPython.embed() ran and returned *)

Inductive exn :=
  | PyException (msg : string). (* raise Exception(msg) *)

Inductive outcome :=
  | Returned                    (* the method fell off its end *)
  | Raised (e : exn)
  | Exited.                     (* sys.exit() *)

Definition newline : string := String "010"%char EmptyString.

Definition max_usage_warning : string :=
  "You have reached the maximum number of calls to " +:+
  "interrupt the code with this function. If you want to continue to " +:+
  "use this breakpoint you must modify self.breaks or self.max_usage" +:+
  newline +:+ newline.

Definition ipython_missing : string :=
  "You must have ipython installed to use break points".

(** ** Module globals: [active_breakpoints]

    [activate_breakpoint tags] extends the global list and returns it;
    the pair is (returned list, new global).  What is returned is the
    global list itself: kept by the client and handed back to the module
    it is the reference [ActiveBreakpoints] below, not a copy. *)

Definition activate_breakpoint (tags : list string)
    (active_breakpoints : list string) : list string * list string :=
  let active_breakpoints' := active_breakpoints ++ tags in
  (active_breakpoints', active_breakpoints').

(** Activations one after the other, as the global list sees them. *)
Definition activate_all (batches : list (list string))
    (active_breakpoints : list string) : list string :=
  foldl (λ acc batch, (activate_breakpoint batch acc).2) active_breakpoints batches.

(** ** References to lists

    [self.tags = tags] keeps the list object it is given, and the module
    extends one list in place: [active_breakpoints], which
    [activate_breakpoint] also returns.  So a list handed to the module is
    either a list of the client's, which the module never writes, or the
    module's own [active_breakpoints], whose contents are those of the
    moment it is read. *)

Inductive list_ref :=
  | Own (l : list string)
  | ActiveBreakpoints.

Coercion Own : list >-> list_ref.

(** The contents of a list, read while the global list is
    [active_breakpoints]. *)
Definition deref (active_breakpoints : list string) (r : list_ref)
    : list string :=
  match r with
  | Own l => l
  | ActiveBreakpoints => active_breakpoints
  end.

(** ** class Breakpoint *)

Record Breakpoint := mkBreakpoint {
  breaks : Z;
  tags : list_ref;
  active : bool;
  max_usage : option Z;
  exit : bool;
  log : option log_directive
}.

(** [activate_tags] is a bool or a list. *)
Inductive activate_tags_arg :=
  | ActivateBool (b : bool)
  | ActivateList (l : list_ref).

Definition truthy (active_breakpoints : list string)
    (a : activate_tags_arg) : bool :=
  match a with
  | ActivateBool b => b
  | ActivateList l => negb (bool_decide (deref active_breakpoints l = []))
  end.

(** The arguments of [Breakpoint(...)], defaults filled in. *)
Record init_args := mkArgs {
  arg_tags : list_ref;
  arg_activate_tags : activate_tags_arg;
  arg_activate : bool;
  arg_max_usage : option Z;
  arg_exit : bool;
  arg_log : option log_directive
}.

Definition default_args : init_args :=
  {| arg_tags := []; arg_activate_tags := ActivateBool true;
     arg_activate := false; arg_max_usage := Some 10;
     arg_exit := false; arg_log := None |}.

(** [Breakpoint.__init__]: the new global list and the instance. *)
Definition Breakpoint_init (a : init_args) (active_breakpoints : list string)
    : list string * Breakpoint :=
  let active_breakpoints' :=
    if truthy active_breakpoints (arg_activate_tags a) then
      match arg_activate_tags a with
      | ActivateBool _ =>
          (activate_breakpoint (deref active_breakpoints (arg_tags a))
             active_breakpoints).2
      | ActivateList l =>
          (activate_breakpoint (deref active_breakpoints l)
             active_breakpoints).2
      end
    else active_breakpoints in
  (active_breakpoints',
   {| breaks := 0;
      tags := arg_tags a;
      active := arg_activate a;
      max_usage := arg_max_usage a;
      exit := arg_exit a;
      log := arg_log a |}).

Definition set_breaks (n : Z) (self : Breakpoint) : Breakpoint :=
  {| breaks := n; tags := tags self; active := active self;
     max_usage := max_usage self; exit := exit self; log := log self |}.

(** *** The frame of [break_here]

    [locals()] is the dictionary of the running frame (CPython 3 up to
    3.12): each call first stores the bound local variables in it and
    drops the names of the unbound ones; keys written by hand stay.
    The local variables of [break_here] are [self], [force], [exit],
    [local_vars], [var], [log] and [IPython]; the last two are unbound
    until after the logging step. *)

Definition bound_locals (me : addr) (force exit : bool) (local_vars : dict)
    (var : option string) : dict :=
  [("self", VRef me); ("force", VBool force); ("exit", VBool exit);
   ("local_vars", VDict local_vars)] ++
  match var with Some k => [("var", VStr k)] | None => [] end.

Definition unbound_locals (var : option string) : list string :=
  match var with Some _ => [] | None => ["var"] end ++ ["log"; "IPython"].

Definition py_locals (me : addr) (force exit : bool) (local_vars : dict)
    (var : option string) (frame : dict) : dict :=
  foldl (λ d k, dict_del k d)
    (foldl (λ d kv, dict_set kv.1 kv.2 d) frame
       (bound_locals me force exit local_vars var))
    (unbound_locals var).

(** [for var in local_vars: locals()[var] = local_vars[var]], from the
    frame dictionary [frame] on; yields the dictionary and the last [var]. *)
Fixpoint copy_locals (me : addr) (force exit : bool) (local_vars : dict)
    (keys : list string) (var : option string) (frame : dict)
    : dict * option string :=
  match keys with
  | [] => (frame, var)
  | k :: keys' =>
      let frame1 := py_locals me force exit local_vars (Some k) frame in
      let frame2 :=
        match dict_get k local_vars with
        | Some v => dict_set k v frame1
        | None => frame1
        end in
      copy_locals me force exit local_vars keys' (Some k) frame2
  end.

(** The argument of [self.log(locals())]. *)
Definition locals_at_log (me : addr) (force exit : bool) (local_vars : dict)
    : dict :=
  let '(frame, var) :=
    copy_locals me force exit local_vars (dict_keys local_vars) None [] in
  py_locals me force exit local_vars var frame.

(** The names [break_here] uses for itself: a variable of the caller with
    one of them is hidden or dropped by [locals()]. *)
Definition own_names : list string :=
  ["self"; "force"; "exit"; "local_vars"; "var"; "log"; "IPython"].

(** *** [break_here] *)

(** [any([tag in active_breakpoints for tag in self.tags])] *)
Definition any_tag_active (active_breakpoints : list string)
    (self : Breakpoint) : bool :=
  existsb (λ tag, bool_decide (tag ∈ active_breakpoints))
    (deref active_breakpoints (tags self)).

(** The first conjunct of the test. *)
Definition wanted (active_breakpoints : list string) (self : Breakpoint)
    (force : bool) : bool :=
  active self || force || any_tag_active active_breakpoints self.

(** The second conjunct: [max_usage is None or breaks < max_usage]. *)
Definition quota_ok (self : Breakpoint) : bool :=
  match max_usage self with
  | None => true
  | Some m => bool_decide (breaks self < m)
  end.

Definition log_events (me : addr) (self : Breakpoint) (local_vars : dict)
    (force exit_now : bool) : list event :=
  match log self with
  | None => []
  | Some d =>
      match d with
      | LogFunction f =>                (* inspect.isfunction(self.log) *)
          [Debug (Text (f (locals_at_log me force exit_now local_vars)))]
      | _ => [Debug (as_logged d)]      (* log = self.log *)
      end
  end.

(** The last statement: [if self.exit or exit: sys.exit()]. *)
Definition exit_check (self : Breakpoint) (exit_now : bool) : outcome :=
  if exit self || exit_now then Exited else Returned.

(** [self.break_here(force, exit)] called from a frame whose local
    variables are [local_vars]; [ipython] tells whether [import IPython]
    succeeds; [me] is the address of [self]. *)
Definition break_here (ipython : bool) (active_breakpoints : list string)
    (me : addr) (self : Breakpoint) (local_vars : dict)
    (force exit_now : bool) : Breakpoint * list event * outcome :=
  let logs := log_events me self local_vars force exit_now in
  if wanted active_breakpoints self force && quota_ok self then
    let self' := set_breaks (breaks self + 1) self in
    let warns :=
      if bool_decide (Some (breaks self') = max_usage self')
      then [Warning max_usage_warning] else [] in
    if ipython
    then (self', logs ++ warns ++ [Embed], exit_check self' exit_now)
    else (self', logs ++ warns, Raised (PyException ipython_missing))
  else (self, logs, exit_check self exit_now).

(** *** Successive calls on one instance

    Between two calls the program may activate tags, uninstall IPython or
    change frames, so each call carries its own environment. *)

Record call := mkCall {
  call_ipython : bool;
  call_active : list string;
  call_locals : dict;
  call_force : bool;
  call_exit : bool
}.

Definition break_here_call (me : addr) (self : Breakpoint) (c : call)
    : Breakpoint * list event * outcome :=
  break_here (call_ipython c) (call_active c) me self (call_locals c)
    (call_force c) (call_exit c).

(** The results of the calls, in order; each call runs on the instance as
    the previous one left it (an exception or [SystemExit] that the caller
    catches leaves the instance as it was when raised). *)
Fixpoint break_here_seq (me : addr) (self : Breakpoint) (calls : list call)
    : list (Breakpoint * list event * outcome) :=
  match calls with
  | [] => []
  | c :: calls' =>
      let r := break_here_call me self c in
      r :: break_here_seq me r.1.1 calls'
  end.

(** *** What a caller observes of one call *)

(** The call went for the console: it ran [IPython.embed()] or failed
    trying to. *)
Definition attempted (r : Breakpoint * list event * outcome) : Prop :=
  Embed ∈ r.1.2 ∨ r.2 = Raised (PyException ipython_missing).

Definition warned (r : Breakpoint * list event * outcome) : Prop :=
  Warning max_usage_warning ∈ r.1.2.

(** ** class func_breakpoint and the heap *)

(** A function object: its [__name__] and what calling it returns. *)
Record function := mkFunction {
  fn_name : string;
  fn_call : list value → dict → value
}.

(** An instance of [func_breakpoint]: [self.args]/[self.kwargs] as the
    arguments they stand for, and [self.breakpoint], unset until
    [__call__] has run. *)
Record func_breakpoint := mkWrapper {
  args : init_args;
  breakpoint : option addr
}.

Inductive object :=
  | OBreakpoint (b : Breakpoint)
  | OWrapper (w : func_breakpoint).

(** The module state: the two globals and the instances. A new instance
    gets the next address. *)
Record World := mkWorld {
  active_breakpoints : list string;
  func_breakpoints : gmap string addr;
  heap : list object
}.

Definition empty_world : World :=
  {| active_breakpoints := []; func_breakpoints := ∅; heap := [] |}.

(** The constructor of [func_breakpoint]: it stores its arguments. *)
Definition func_breakpoint_init (a : init_args) (w : World) : World * addr :=
  ({| active_breakpoints := active_breakpoints w;
      func_breakpoints := func_breakpoints w;
      heap := heap w ++ [OWrapper {| args := a; breakpoint := None |}] |},
   length (heap w)).

(** The closure [inner] that [__call__] returns: its [__name__] and the
    [self] and [func] it closes over. *)
Record inner := mkInner {
  inner_name : string;
  inner_self : addr;
  inner_func : function
}.

(** [func_breakpoint.__call__(self, func)]. [None] when [self] is not the
    address of a [func_breakpoint]. *)
Definition func_breakpoint_call (self : addr) (func : function) (w : World)
    : option (World * inner) :=
  match heap w !! self with
  | Some (OWrapper fb) =>
      let inner0 :=
        {| inner_name := "inner"; inner_self := self; inner_func := func |} in
      let w' :=
        match func_breakpoints w !! inner_name inner0 with
        | Some b =>
            {| active_breakpoints := active_breakpoints w;
               func_breakpoints := func_breakpoints w;
               heap := <[self := OWrapper {| args := args fb;
                                             breakpoint := Some b |}]>
                         (heap w) |}
        | None =>
            let '(active', bp) :=
              Breakpoint_init (args fb) (active_breakpoints w) in
            let b := length (heap w) in
            {| active_breakpoints := active';
               func_breakpoints := func_breakpoints w;
               heap := <[self := OWrapper {| args := args fb;
                                             breakpoint := Some b |}]>
                         (heap w ++ [OBreakpoint bp]) |}
        end in
      Some (w', {| inner_name := fn_name func; inner_self := self;
                   inner_func := func |})
  | _ => None
  end.

(** How a call of the wrapped function ends. *)
Inductive result :=
  | Value (v : value)
  | Raises (e : exn)
  | Exits.

(** The frame of [inner]: its parameters, then the variables it closes
    over. *)
Definition inner_locals (f : inner) (args : list value) (kwargs : dict)
    : dict :=
  [("args", VTuple args); ("kwargs", VDict kwargs);
   ("func", VFunction (fn_name (inner_func f)));
   ("self", VRef (inner_self f))].

(** A call of [inner]: [self.breakpoint.break_here()], then the call of
    [func] with the same arguments. [None] when [self.breakpoint] is not set to a
    Breakpoint. *)
Definition inner_call (ipython : bool) (f : inner) (args : list value)
    (kwargs : dict) (w : World) : option (World * list event * result) :=
  match heap w !! inner_self f with
  | Some (OWrapper fb) =>
      match breakpoint fb with
      | Some b =>
          match heap w !! b with
          | Some (OBreakpoint bp) =>
              let '(bp', events, out) :=
                break_here ipython (active_breakpoints w) b bp
                  (inner_locals f args kwargs) false false in
              let w' :=
                {| active_breakpoints := active_breakpoints w;
                   func_breakpoints := func_breakpoints w;
                   heap := <[b := OBreakpoint bp']> (heap w) |} in
              Some (w', events,
                    match out with
                    | Returned => Value (fn_call (inner_func f) args kwargs)
                    | Raised e => Raises e
                    | Exited => Exits
                    end)
          | _ => None
          end
      | None => None
      end
  | _ => None
  end.

(** The usage counter of the Breakpoint at [b]. *)
Definition breaks_at (b : addr) (w : World) : option Z :=
  match heap w !! b with
  | Some (OBreakpoint bp) => Some (breaks bp)
  | _ => None
  end.

(** The Breakpoint a wrapper holds. *)
Definition breakpoint_of (self : addr) (w : World) : option addr :=
  match heap w !! self with
  | Some (OWrapper fb) => breakpoint fb
  | _ => None
  end.

(** *** Counting the uses in a run *)

Definition is_embed (e : event) : bool :=
  match e with Embed => true | _ => false end.

(** The boolean form of [attempted], on the results of [break_here]. *)
Definition went_for_console (r : Breakpoint * list event * outcome) : bool :=
  existsb is_embed r.1.2 ||
  match r.2 with Raised _ => true | _ => false end.

(** How many calls of a run went for the console. *)
Definition uses (results : list (Breakpoint * list event * outcome)) : nat :=
  length (filter (λ r, went_for_console r = true) results).

(** The instance after a run that started on [self]. *)
Definition final_state (self : Breakpoint)
    (results : list (Breakpoint * list event * outcome)) : Breakpoint :=
  match last results with
  | Some r => r.1.1
  | None => self
  end.

(** ** Programs against the module

    What client code can do with the module, one operation at a time, on
    the module state.  An operation on an address that holds no object of
    the right class changes nothing; a call that raised or exited is taken
    to have been caught by the client, which goes on. *)

Inductive action :=
  | Activate (tags : list_ref)                  (* activate_breakpoint(tags) *)
  | Construct (a : init_args)                   (* Breakpoint(...) *)
  | Fire (ipython : bool) (b : addr) (local_vars : dict)
         (force exit_now : bool)                (* b.break_here(force, exit) *)
  | Decorator (a : init_args)                   (* func_breakpoint(...) *)
  | Decorate (self : addr) (func : function)    (* self(func) *)
  | CallWrapped (ipython : bool) (f : inner) (args : list value)
                (kwargs : dict).                (* f(args, kwargs) *)

Definition perform (w : World) (act : action) : World :=
  match act with
  | Activate tags =>
      {| active_breakpoints :=
           (activate_breakpoint (deref (active_breakpoints w) tags)
              (active_breakpoints w)).2;
         func_breakpoints := func_breakpoints w;
         heap := heap w |}
  | Construct a =>
      let '(active', bp) := Breakpoint_init a (active_breakpoints w) in
      {| active_breakpoints := active';
         func_breakpoints := func_breakpoints w;
         heap := heap w ++ [OBreakpoint bp] |}
  | Fire ipython b local_vars force exit_now =>
      match heap w !! b with
      | Some (OBreakpoint bp) =>
          let r :=
            break_here ipython (active_breakpoints w) b bp local_vars
              force exit_now in
          {| active_breakpoints := active_breakpoints w;
             func_breakpoints := func_breakpoints w;
             heap := <[b := OBreakpoint r.1.1]> (heap w) |}
      | _ => w
      end
  | Decorator a => (func_breakpoint_init a w).1
  | Decorate self func =>
      match func_breakpoint_call self func w with
      | Some (w', _) => w'
      | None => w
      end
  | CallWrapped ipython f args kwargs =>
      match inner_call ipython f args kwargs w with
      | Some (w', _, _) => w'
      | None => w
      end
  end.

Definition perform_all (w : World) (acts : list action) : World :=
  foldl perform w acts.

(** [b'] is the instance [b] after some calls: the same configuration,
    and no fewer uses. *)
Definition same_breakpoint_later (b b' : Breakpoint) : Prop :=
  tags b' = tags b ∧ active b' = active b ∧ max_usage b' = max_usage b ∧
  exit b' = exit b ∧ log b' = log b ∧ breaks b ≤ breaks b'.

(** [o'] is the object [o] later on. *)
Definition same_object_later (o o' : object) : Prop :=
  match o, o' with
  | OBreakpoint b, OBreakpoint b' => same_breakpoint_later b b'
  | OWrapper fb, OWrapper fb' => args fb' = args fb
  | _, _ => False
  end.

(** [w'] is a later state of [w]. *)
Definition later_world (w w' : World) : Prop :=
  func_breakpoints w' = func_breakpoints w ∧
  active_breakpoints w `prefix_of` active_breakpoints w' ∧
  ∀ (a : addr) o, heap w !! a = Some o →
    ∃ o', heap w' !! a = Some o' ∧ same_object_later o o'.

(** ** A string given as [tags]

    The class docstring decorates with [func_breakpoint('debug')], which
    makes [tags] a string.  The module only iterates over [tags]
    ([extend(tags)], [for tag in self.tags]), and iterating over a string
    yields its characters, each a string of length one. *)
Fixpoint chars (s : string) : list string :=
  match s with
  | EmptyString => []
  | String c s' => String c EmptyString :: chars s'
  end.

End core.

Import core.

(** * Properties *)

(** ** Basic facts about [break_here] *)

Section break_here_facts.
Context (ipython : bool) (active_tags : list string) (me : addr).
Context (self : Breakpoint) (local_vars : dict) (force exit_now : bool).

Let r := break_here ipython active_tags me self local_vars force exit_now.

Lemma log_events_no_embed : Embed ∉ log_events me self local_vars force exit_now.
Proof.
  unfold log_events. destruct (log self) as [[]|]; simpl;
    rewrite ?list_elem_of_singleton; first [discriminate | apply not_elem_of_nil].
Qed.

Lemma log_events_no_warning text :
  Warning text ∉ log_events me self local_vars force exit_now.
Proof.
  unfold log_events. destruct (log self) as [[]|]; simpl;
    rewrite ?list_elem_of_singleton; first [discriminate | apply not_elem_of_nil].
Qed.

(** The branch taken when the test succeeds. *)
Lemma break_here_fire :
  wanted active_tags self force && quota_ok self = true →
  r = (set_breaks (breaks self + 1) self,
       log_events me self local_vars force exit_now ++
         (if bool_decide (Some (breaks self + 1) = max_usage self)
          then [Warning max_usage_warning] else []) ++
         (if ipython then [Embed] else []),
       if ipython then exit_check self exit_now
       else Raised (PyException ipython_missing)).
Proof.
  intros Hc. subst r. unfold break_here. rewrite Hc. simpl.
  destruct ipython; simpl; [done|]. by rewrite app_nil_r.
Qed.

(** The branch taken when it fails. *)
Lemma break_here_skip :
  wanted active_tags self force && quota_ok self = false →
  r = (self, log_events me self local_vars force exit_now,
       exit_check self exit_now).
Proof. intros Hc. subst r. unfold break_here. by rewrite Hc. Qed.

Lemma exit_check_not_raised b e : exit_check self b ≠ Raised e.
Proof. unfold exit_check. by destruct (_ || _). Qed.

(** The console is tried exactly when the test succeeds. *)
Lemma attempted_iff :
  attempted r ↔ wanted active_tags self force && quota_ok self = true.
Proof.
  unfold attempted.
  destruct (wanted active_tags self force && quota_ok self) eqn:Hc.
  - rewrite (break_here_fire Hc). simpl. split; [done|]. intros _.
    destruct ipython; [left|by right].
    rewrite !elem_of_app, list_elem_of_singleton. auto.
  - rewrite (break_here_skip Hc). simpl. split; [|done].
    intros [H|H]; [by apply log_events_no_embed in H|].
    by apply exit_check_not_raised in H.
Qed.

(** The counter moves by one exactly when the test succeeds, and not at
    all otherwise. *)
Lemma breaks_after :
  breaks r.1.1 =
    if wanted active_tags self force && quota_ok self
    then breaks self + 1 else breaks self.
Proof.
  destruct (wanted active_tags self force && quota_ok self) eqn:Hc.
  - by rewrite (break_here_fire Hc).
  - by rewrite (break_here_skip Hc).
Qed.

(** [break_here] writes no attribute but [breaks]. *)
Lemma break_here_config :
  tags r.1.1 = tags self ∧ active r.1.1 = active self ∧
  max_usage r.1.1 = max_usage self ∧ exit r.1.1 = exit self ∧
  log r.1.1 = log self.
Proof.
  destruct (wanted active_tags self force && quota_ok self) eqn:Hc.
  - by rewrite (break_here_fire Hc).
  - by rewrite (break_here_skip Hc).
Qed.

Lemma embed_iff :
  Embed ∈ r.1.2 ↔
  wanted active_tags self force && quota_ok self = true ∧ ipython = true.
Proof.
  destruct (wanted active_tags self force && quota_ok self) eqn:Hc.
  - rewrite (break_here_fire Hc). simpl.
    rewrite !elem_of_app. destruct ipython.
    + rewrite list_elem_of_singleton. naive_solver.
    + split; [|naive_solver]. intros [H|[H|H]].
      * by apply log_events_no_embed in H.
      * case_bool_decide; set_solver.
      * set_solver.
  - rewrite (break_here_skip Hc). simpl. split; [|naive_solver].
    intros H. by apply log_events_no_embed in H.
Qed.

Lemma warned_iff :
  warned r ↔
  wanted active_tags self force && quota_ok self = true ∧
  Some (breaks self + 1) = max_usage self.
Proof.
  unfold warned.
  destruct (wanted active_tags self force && quota_ok self) eqn:Hc.
  - rewrite (break_here_fire Hc). simpl. rewrite !elem_of_app.
    case_bool_decide as Hm.
    + rewrite list_elem_of_singleton. naive_solver.
    + split; [|naive_solver]. intros [H|[H|H]].
      * by apply log_events_no_warning in H.
      * set_solver.
      * destruct ipython; set_solver.
  - rewrite (break_here_skip Hc). simpl. split; [|naive_solver].
    intros H. by apply log_events_no_warning in H.
Qed.

End break_here_facts.

(** The tag test is membership of some tag of the instance in the global
    list. *)
Lemma any_tag_active_spec (active_tags : list string) (self : Breakpoint) :
  any_tag_active active_tags self = true ↔
  ∃ tag, tag ∈ deref active_tags (tags self) ∧ tag ∈ active_tags.
Proof.
  unfold any_tag_active. rewrite existsb_exists. split.
  - intros (tag & Hin & Hd). exists tag. split.
    + by apply list_elem_of_In.
    + by apply bool_decide_eq_true in Hd.
  - intros (tag & Hin & Hd). exists tag. split.
    + by apply list_elem_of_In.
    + by apply bool_decide_eq_true.
Qed.

Lemma wanted_spec (active_tags : list string) (self : Breakpoint) (force : bool) :
  wanted active_tags self force = true ↔
  active self = true ∨ force = true ∨
  ∃ tag, tag ∈ deref active_tags (tags self) ∧ tag ∈ active_tags.
Proof.
  unfold wanted. rewrite !orb_true_iff, any_tag_active_spec. tauto.
Qed.

Lemma quota_ok_spec (self : Breakpoint) :
  quota_ok self = true ↔
  max_usage self = None ∨ ∃ m, max_usage self = Some m ∧ breaks self < m.
Proof.
  unfold quota_ok. destruct (max_usage self) as [m|].
  - rewrite bool_decide_eq_true. naive_solver.
  - naive_solver.
Qed.

(** ** Activating tags *)

Lemma activate_all_concat batches active_tags :
  activate_all batches active_tags = active_tags ++ concat batches.
Proof.
  revert active_tags. induction batches as [|b bs IH]; intros acc; simpl.
  - by rewrite app_nil_r.
  - unfold activate_all in *. rewrite IH. simpl. by rewrite <- app_assoc.
Qed.

(** C9. [activate_breakpoint T] puts the elements of [T], in order and
    with their repetitions, behind the tags already active; the tags that
    were active keep their positions; the list returned is the global list
    after the call; and whatever activations follow, the list before them
    remains a prefix of the list after them. *)
Theorem activate_breakpoint_appends (T active_tags : list string) :
  let '(returned, active_tags') := activate_breakpoint T active_tags in
  active_tags' = active_tags ++ T ∧
  returned = active_tags' ∧
  (∀ i tag, active_tags !! i = Some tag → active_tags' !! i = Some tag) ∧
  (∀ i, active_tags' !! (length active_tags + i)%nat = T !! i) ∧
  (∀ tag, tag ∈ active_tags' ↔ tag ∈ active_tags ∨ tag ∈ T) ∧
  length active_tags' = (length active_tags + length T)%nat ∧
  (∀ batches, active_tags `prefix_of` activate_all batches active_tags).
Proof.
  unfold activate_breakpoint. simpl. repeat split.
  - intros i tag Hi. by apply lookup_app_l_Some.
  - intros i. by rewrite lookup_app_r, Nat.add_sub' by lia.
  - by rewrite elem_of_app.
  - by rewrite elem_of_app.
  - by rewrite length_app.
  - intros batches. rewrite activate_all_concat. by apply prefix_app_r.
Qed.

Lemma activate_breakpoint_appends_witness :
  activate_breakpoint ["b"; "a"] ["a"] = (["a"; "b"; "a"], ["a"; "b"; "a"]) ∧
  (activate_breakpoint ["b"; "a"] ["a"]).2 !! 0%nat = Some "a".
Proof.
  split; [reflexivity|].
  pose proof (activate_breakpoint_appends ["b"; "a"] ["a"]) as H.
  simpl in H. destruct H as (_ & _ & H & _).
  apply (H 0%nat "a"). reflexivity.
Defined.

(** ** When a call goes for the console *)

Lemma activate_all_keeps T before later (tag : string) :
  tag ∈ T → tag ∈ activate_all later (activate_breakpoint T before).2.
Proof.
  intros Hin. rewrite activate_all_concat. simpl.
  rewrite !elem_of_app. auto.
Qed.

Lemma Breakpoint_init_fields a active_tags :
  let bp := (Breakpoint_init a active_tags).2 in
  breaks bp = 0 ∧ tags bp = arg_tags a ∧ active bp = arg_activate a ∧
  max_usage bp = arg_max_usage a ∧ exit bp = arg_exit a ∧
  log bp = arg_log a.
Proof. done. Qed.

(** C3. A call of [break_here] triggers, that is, goes for the console
    and counts one more use, if and only if the instance is always
    active, or the call is forced, or one of its tags is in the global
    list, and moreover [max_usage] is [None] or [breaks] is below it.
    Going for the console is opening it when IPython can be imported, and
    raising when it cannot.  So a forced call depends on the quota alone;
    and so does an unforced call on an instance that has a tag among
    those of an earlier activation, whatever was activated since. *)
Theorem break_here_triggers_iff (ipython : bool) (active_tags : list string)
    (me : addr) (self : Breakpoint) (local_vars : dict)
    (force exit_now : bool) :
  let r := break_here ipython active_tags me self local_vars force exit_now in
  let asked :=
    active self = true ∨ force = true ∨
    ∃ tag, tag ∈ deref active_tags (tags self) ∧ tag ∈ active_tags in
  let armed :=
    max_usage self = None ∨ ∃ m, max_usage self = Some m ∧ breaks self < m in
  (attempted r ↔ asked ∧ armed) ∧
  (breaks r.1.1 = breaks self + 1 ↔ asked ∧ armed) ∧
  (breaks r.1.1 = breaks self ↔ ¬ (asked ∧ armed)) ∧
  (force = true → (attempted r ↔ armed)) ∧
  (∀ T before later tag,
     active_tags = activate_all later (activate_breakpoint T before).2 →
     tag ∈ T → tag ∈ deref active_tags (tags self) →
     (attempted r ↔ armed)) ∧
  (Embed ∈ r.1.2 ↔ (asked ∧ armed) ∧ ipython = true) ∧
  (r.2 = Raised (PyException ipython_missing)
   ↔ (asked ∧ armed) ∧ ipython = false) ∧
  (force = true → (Embed ∈ r.1.2 ↔ armed ∧ ipython = true)) ∧
  (∀ T before later tag,
     active_tags = activate_all later (activate_breakpoint T before).2 →
     tag ∈ T → tag ∈ deref active_tags (tags self) →
     (Embed ∈ r.1.2 ↔ armed ∧ ipython = true)).
Proof.
  intros r asked armed.
  assert (Hc : wanted active_tags self force && quota_ok self = true
               ↔ asked ∧ armed).
  { rewrite andb_true_iff, wanted_spec, quota_ok_spec. done. }
  assert (Ha : attempted r ↔ asked ∧ armed).
  { subst r. by rewrite attempted_iff. }
  assert (He : Embed ∈ r.1.2 ↔ (asked ∧ armed) ∧ ipython = true).
  { subst r. by rewrite embed_iff, Hc. }
  assert (Hx : r.2 = Raised (PyException ipython_missing)
               ↔ (asked ∧ armed) ∧ ipython = false).
  { rewrite <- Hc. subst r.
    destruct (wanted active_tags self force && quota_ok self) eqn:Hw.
    - rewrite break_here_fire by done. simpl. destruct ipython.
      + split; [|by intros [_ ?]].
        intros H. by apply exit_check_not_raised in H.
      + done.
    - rewrite break_here_skip by done. simpl. split; [|by intros [? _]].
      intros H. by apply exit_check_not_raised in H. }
  assert (Htag : ∀ T before later tag,
            active_tags = activate_all later (activate_breakpoint T before).2 →
            tag ∈ T → tag ∈ deref active_tags (tags self) → asked).
  { intros T before later tag Hact HT Htag. right; right. exists tag.
    split; [done|]. rewrite Hact. by apply activate_all_keeps. }
  pose proof (breaks_after ipython active_tags me self local_vars
                force exit_now) as Hb. fold r in Hb.
  split_and!.
  - done.
  - rewrite <- Hc, Hb.
    destruct (wanted active_tags self force && quota_ok self);
      split; (done || lia).
  - rewrite <- Hc, Hb.
    destruct (wanted active_tags self force && quota_ok self);
      split; try done; try lia; intros H; by destruct H.
  - intros ->. rewrite Ha. subst asked. tauto.
  - intros T before later tag Hact HT Ht. rewrite Ha.
    pose proof (Htag T before later tag Hact HT Ht). tauto.
  - done.
  - done.
  - intros ->. rewrite He. subst asked. tauto.
  - intros T before later tag Hact HT Ht. rewrite He.
    pose proof (Htag T before later tag Hact HT Ht). tauto.
Qed.

Lemma break_here_triggers_iff_witness :
  Embed ∈
    (break_here true (activate_all [["io"]] (activate_breakpoint ["dbg"] []).2)
       0%nat (Breakpoint_init
                {| arg_tags := ["net"; "dbg"];
                   arg_activate_tags := ActivateBool false;
                   arg_activate := false; arg_max_usage := Some 1;
                   arg_exit := false; arg_log := None |} []).2
       [] false false).1.2.
Proof.
  pose proof (break_here_triggers_iff true
    (activate_all [["io"]] (activate_breakpoint ["dbg"] []).2) 0%nat
    (Breakpoint_init
       {| arg_tags := ["net"; "dbg"];
          arg_activate_tags := ActivateBool false;
          arg_activate := false; arg_max_usage := Some 1;
          arg_exit := false; arg_log := None |} []).2
    [] false false) as (_ & _ & _ & _ & _ & _ & _ & _ & H).
  apply (H ["dbg"] [] [["io"]] "dbg").
  - reflexivity.
  - apply list_elem_of_In. simpl. auto.
  - apply list_elem_of_In. simpl. auto.
  - split; [|reflexivity].
    right. exists 1. split; [reflexivity|]. simpl. lia.
Defined.

(** ** A missing console *)

(** C4. When the test of [break_here] succeeds and [import IPython]
    fails, the call raises [Exception] with the message about installing
    ipython: it does not return, the console has not run, and the final
    [sys.exit()] is not reached. *)
Theorem break_here_without_ipython (active_tags : list string) (me : addr)
    (self : Breakpoint) (local_vars : dict) (force exit_now : bool) :
  wanted active_tags self force = true →
  quota_ok self = true →
  let r := break_here false active_tags me self local_vars force exit_now in
  r.2 = Raised (PyException ipython_missing) ∧
  r.2 ≠ Returned ∧ r.2 ≠ Exited ∧ Embed ∉ r.1.2.
Proof.
  intros Hw Hq r. subst r.
  rewrite break_here_fire by (by rewrite Hw, Hq). simpl.
  split_and!; try done.
  rewrite !elem_of_app. intros [H|[H|H]].
  - by apply log_events_no_embed in H.
  - case_bool_decide; set_solver.
  - set_solver.
Qed.

Lemma break_here_without_ipython_witness :
  (break_here false [] 0%nat (Breakpoint_init default_args []).2 []
     true true).2 = Raised (PyException ipython_missing).
Proof.
  apply (break_here_without_ipython [] 0%nat
           (Breakpoint_init default_args []).2 [] true true);
    reflexivity.
Defined.

(** C5, as the code has it. When the test succeeds and [import IPython]
    fails, the call raises after [breaks] has been incremented: the failed
    call counts as one use. *)
Theorem break_here_failure_counts (active_tags : list string) (me : addr)
    (self : Breakpoint) (local_vars : dict) (force exit_now : bool) :
  wanted active_tags self force = true →
  quota_ok self = true →
  let r := break_here false active_tags me self local_vars force exit_now in
  r.2 = Raised (PyException ipython_missing) ∧
  breaks r.1.1 = breaks self + 1.
Proof.
  intros Hw Hq r. subst r.
  by rewrite break_here_fire by (by rewrite Hw, Hq).
Qed.

Lemma break_here_failure_counts_witness :
  breaks (break_here false [] 0%nat (Breakpoint_init default_args []).2 []
            true false).1.1 = 1.
Proof.
  apply (break_here_failure_counts [] 0%nat
           (Breakpoint_init default_args []).2 [] true false);
    reflexivity.
Defined.

(** C5 as stated fails: a new Breakpoint with the default arguments,
    forced while IPython cannot be imported, raises and is left with
    [breaks = 1]. *)
Lemma break_here_failure_changes_breaks :
  let bp := (Breakpoint_init default_args []).2 in
  let r := break_here false [] 0%nat bp [] true false in
  wanted [] bp true = true ∧ quota_ok bp = true ∧
  r.2 = Raised (PyException ipython_missing) ∧
  breaks bp = 0 ∧ breaks r.1.1 = 1 ∧ breaks r.1.1 ≠ breaks bp.
Proof. simpl. split_and!; done. Qed.

(** ** Successive calls *)

Lemma wanted_same_config active_tags (s1 s2 : Breakpoint) force :
  tags s1 = tags s2 → active s1 = active s2 →
  wanted active_tags s1 force = wanted active_tags s2 force.
Proof.
  intros Ht Ha. unfold wanted, any_tag_active. by rewrite Ht, Ha.
Qed.

Lemma break_here_seq_length me self calls :
  length (break_here_seq me self calls) = length calls.
Proof.
  revert self. induction calls as [|c cs IH]; intros self; simpl; [done|].
  by rewrite IH.
Qed.

(** Every call returns a result: the list of results is as long as the
    list of calls. *)
Lemma break_here_seq_lookup me self calls (i : nat) c :
  calls !! i = Some c → is_Some (break_here_seq me self calls !! i).
Proof.
  intros Hc. apply lookup_lt_is_Some. rewrite break_here_seq_length.
  by eapply lookup_lt_Some.
Qed.

(** The [i]-th of a run of calls that all pass the first conjunct of the
    test, on an instance with [max_usage = N] that has been used [k]
    times. *)
Lemma break_here_seq_quota me N calls :
  ∀ self (i : nat) c r,
    max_usage self = Some N →
    Forall (λ c, wanted (call_active c) self (call_force c) = true) calls →
    calls !! i = Some c →
    break_here_seq me self calls !! i = Some r →
    max_usage r.1.1 = Some N ∧
    breaks r.1.1 = Z.max (breaks self) (Z.min (breaks self + Z.of_nat i + 1) N) ∧
    (attempted r ↔ breaks self + Z.of_nat i < N) ∧
    (Embed ∈ r.1.2 ↔ breaks self + Z.of_nat i < N ∧ call_ipython c = true) ∧
    (warned r ↔ breaks self + Z.of_nat i + 1 = N).
Proof.
  induction calls as [|c0 cs IH]; intros self i c r Hm Hall Hc Hr; [done|].
  apply Forall_cons in Hall as [Hw Hall].
  simpl in Hr.
  set (r0 := break_here_call me self c0) in *.
  pose proof (break_here_config (call_ipython c0) (call_active c0) me self
                (call_locals c0) (call_force c0) (call_exit c0))
    as (Ht & Ha & Hmx & _ & _).
  pose proof (breaks_after (call_ipython c0) (call_active c0) me self
                (call_locals c0) (call_force c0) (call_exit c0)) as Hb.
  fold (break_here_call me self c0) in Ht, Ha, Hmx, Hb. fold r0 in Ht, Ha, Hmx, Hb.
  rewrite Hw in Hb. simpl in Hb.
  assert (Hq : quota_ok self = bool_decide (breaks self < N)).
  { unfold quota_ok. by rewrite Hm. }
  rewrite Hq in Hb.
  destruct i as [|i]; simpl in Hc, Hr.
  - injection Hc as <-. injection Hr as <-.
    split; [by rewrite Hmx|].
    split; [case_bool_decide; lia|].
    split.
    { unfold r0, break_here_call. rewrite attempted_iff, Hw, Hq. simpl.
      rewrite bool_decide_eq_true. lia. }
    split.
    { unfold r0, break_here_call. rewrite embed_iff, Hw, Hq. simpl.
      rewrite bool_decide_eq_true.
      split; (intros [? ?]; split; [lia|done]). }
    unfold r0, break_here_call. rewrite warned_iff, Hw, Hq. simpl.
    rewrite Hm, bool_decide_eq_true. split.
    + intros [_ [= HN]]. lia.
    + intros HN. split; [lia|]. f_equal. lia.
  - assert (Hall' : Forall (λ c, wanted (call_active c) r0.1.1 (call_force c)
                               = true) cs).
    { eapply Forall_impl; [exact Hall|]. intros c' Hc'. simpl in Hc'.
      by rewrite (wanted_same_config _ _ self). }
    destruct (IH r0.1.1 i c r) as (H1 & H2 & H3 & H4 & H5);
      [by rewrite Hmx | done | done | done |].
    split; [done|]. rewrite H2, H3, H4, H5.
    case_bool_decide; rewrite Hb; split_and!; try lia;
      (split; [intros [? ?]; split; [lia|done] | intros [? ?]; split; [lia|done]]).
Qed.

(** C6. On an instance whose [max_usage] is an integer and whose [breaks]
    does not exceed it, a call of [break_here] leaves [breaks] at most
    [max_usage], and so does any run of calls. *)
Theorem breaks_le_max_usage_preserved (m : Z) (me : addr)
    (self : Breakpoint) :
  max_usage self = Some m →
  breaks self ≤ m →
  (∀ ipython active_tags local_vars force exit_now,
     let self' :=
       (break_here ipython active_tags me self local_vars force exit_now).1.1
     in max_usage self' = Some m ∧ breaks self ≤ breaks self' ≤ m) ∧
  (∀ calls,
     Forall (λ r, max_usage r.1.1 = Some m ∧ breaks r.1.1 ≤ m)
       (break_here_seq me self calls)).
Proof.
  intros Hm Hle.
  assert (Hstep : ∀ s ipython active_tags local_vars force exit_now,
            max_usage s = Some m → breaks s ≤ m →
            let s' :=
              (break_here ipython active_tags me s local_vars force
                 exit_now).1.1
            in max_usage s' = Some m ∧ breaks s ≤ breaks s' ≤ m).
  { intros s ipython active_tags local_vars force exit_now Hms Hles s'.
    subst s'.
    pose proof (break_here_config ipython active_tags me s local_vars
                  force exit_now) as (_ & _ & Hmx & _ & _).
    rewrite Hmx, breaks_after. split; [done|].
    unfold quota_ok. rewrite Hms.
    destruct (wanted active_tags s force); simpl; [|lia].
    case_bool_decide; lia. }
  split.
  - intros. by apply Hstep.
  - intros calls. revert self Hm Hle.
    induction calls as [|c cs IH]; intros self Hm Hle; simpl;
      [by apply Forall_nil|].
    destruct (Hstep self (call_ipython c) (call_active c) (call_locals c)
                (call_force c) (call_exit c) Hm Hle) as [Hm' Hle'].
    apply Forall_cons. split.
    + split; [exact Hm'|]. unfold break_here_call. lia.
    + apply IH; [exact Hm'|]. unfold break_here_call. lia.
Qed.

Lemma breaks_le_max_usage_preserved_witness :
  breaks (break_here true [] 0%nat
            (set_breaks 9 (Breakpoint_init default_args []).2) []
            true false).1.1 ≤ 10.
Proof.
  destruct (breaks_le_max_usage_preserved 10 0%nat
              (set_breaks 9 (Breakpoint_init default_args []).2))
    as [H _].
  - reflexivity.
  - simpl. lia.
  - apply (H true [] [] true false).
Defined.

(** An instance whose [breaks] has reached an integer [max_usage] stays
    as it is, whatever the calls. *)
Lemma break_here_seq_expired me N calls :
  ∀ self,
    max_usage self = Some N → N ≤ breaks self →
    Forall (λ r, r.1.1 = self ∧ ¬ attempted r ∧ (Embed ∉ r.1.2) ∧ ¬ warned r)
      (break_here_seq me self calls).
Proof.
  induction calls as [|c cs IH]; intros self Hm Hle; simpl;
    [by apply Forall_nil|].
  assert (Hc : wanted (call_active c) self (call_force c) && quota_ok self
               = false).
  { unfold quota_ok. rewrite Hm. rewrite bool_decide_eq_false_2 by lia.
    apply andb_false_r. }
  assert (Hs : (break_here_call me self c).1.1 = self).
  { unfold break_here_call. by rewrite (break_here_skip _ _ _ _ _ _ _ Hc). }
  apply Forall_cons. split.
  - split; [exact Hs|]. unfold break_here_call.
    rewrite attempted_iff, embed_iff, warned_iff, Hc. naive_solver.
  - rewrite Hs. by apply IH.
Qed.

(** C1. Take a Breakpoint just constructed with [max_usage = N] and any
    run of calls of [break_here] that each pass the first conjunct of the
    test (always active, forced, or a tag in the global list at that
    time).  Every call yields a result; call number [i], counted from 0,
    goes for the console exactly when [i < N], and runs it when moreover
    IPython can be imported; after it [breaks] is [min (i + 1) N] (0 for a
    negative [N]); and the warning is logged by the call that makes
    [breaks] reach [N], that is call number [N - 1], and by no other. *)
Theorem max_usage_first_calls (a : init_args) (active0 : list string)
    (N : Z) (me : addr) (calls : list call) :
  arg_max_usage a = Some N →
  let bp := (Breakpoint_init a active0).2 in
  Forall (λ c, wanted (call_active c) bp (call_force c) = true) calls →
  ∀ (i : nat) c, calls !! i = Some c →
    ∃ r, break_here_seq me bp calls !! i = Some r ∧
      breaks r.1.1 = Z.max 0 (Z.min (Z.of_nat i + 1) N) ∧
      (attempted r ↔ Z.of_nat i < N) ∧
      (Embed ∈ r.1.2 ↔ Z.of_nat i < N ∧ call_ipython c = true) ∧
      (warned r ↔ Z.of_nat i + 1 = N).
Proof.
  intros HN bp Hall i c Hc.
  destruct (break_here_seq_lookup me bp calls i c Hc) as [r Hr].
  exists r. split; [exact Hr|].
  destruct (break_here_seq_quota me N calls bp i c r)
    as (_ & H2 & H3 & H4 & H5); done.
Qed.

Lemma max_usage_first_calls_witness :
  ∃ r,
    break_here_seq 0%nat
      (Breakpoint_init
         {| arg_tags := []; arg_activate_tags := ActivateBool true;
            arg_activate := false; arg_max_usage := Some 2;
            arg_exit := false; arg_log := None |} []).2
      (replicate 3 (mkCall true [] [] true false)) !! 1%nat = Some r ∧
    breaks r.1.1 = 2 ∧ Embed ∈ r.1.2 ∧ warned r.
Proof.
  destruct (max_usage_first_calls
              {| arg_tags := []; arg_activate_tags := ActivateBool true;
                 arg_activate := false; arg_max_usage := Some 2;
                 arg_exit := false; arg_log := None |} [] 2 0%nat
              (replicate 3 (mkCall true [] [] true false))
              eq_refl
              ltac:(repeat constructor)
              1%nat (mkCall true [] [] true false) eq_refl)
    as (r & Hr & Hb & _ & He & Hw).
  exists r. split; [exact Hr|]. split; [exact Hb|]. split.
  - apply He. split; [lia|reflexivity].
  - apply Hw. reflexivity.
Defined.

(** C10. A Breakpoint constructed with [max_usage = 0] never goes for the
    console: in any run of calls, forced or not, always active or not,
    [breaks] stays 0, the console does not run, nothing is raised for a
    missing IPython and no warning is logged.  The unlimited quota is
    [None]: with it every call that passes the first conjunct goes for the
    console. *)
Theorem max_usage_zero_never_fires (a : init_args) (active0 : list string)
    (me : addr) (calls : list call) :
  arg_max_usage a = Some 0 →
  let bp := (Breakpoint_init a active0).2 in
  quota_ok bp = false ∧
  Forall (λ r, breaks r.1.1 = 0 ∧ ¬ attempted r ∧ (Embed ∉ r.1.2) ∧ ¬ warned r)
    (break_here_seq me bp calls) ∧
  (∀ self ipython active_tags local_vars force exit_now,
     max_usage self = None →
     wanted active_tags self force = true →
     attempted
       (break_here ipython active_tags me self local_vars force exit_now)).
Proof.
  intros H0 bp. split_and!.
  - unfold quota_ok. subst bp. simpl. by rewrite H0.
  - eapply Forall_impl.
    + apply (break_here_seq_expired me 0 calls bp); [exact H0|done].
    + intros r (-> & ? & ? & ?). done.
  - intros self ipython active_tags local_vars force exit_now Hn Hw.
    apply attempted_iff. rewrite Hw. unfold quota_ok. by rewrite Hn.
Qed.

Lemma max_usage_zero_never_fires_witness :
  Forall (λ r, breaks r.1.1 = 0 ∧ ¬ attempted r ∧ (Embed ∉ r.1.2) ∧ ¬ warned r)
    (break_here_seq 0%nat
       (Breakpoint_init
          {| arg_tags := ["dbg"]; arg_activate_tags := ActivateBool true;
             arg_activate := true; arg_max_usage := Some 0;
             arg_exit := false; arg_log := None |} []).2
       [mkCall true ["dbg"] [] true false;
        mkCall true ["dbg"] [] false false]).
Proof.
  apply (max_usage_zero_never_fires
           {| arg_tags := ["dbg"]; arg_activate_tags := ActivateBool true;
              arg_activate := true; arg_max_usage := Some 0;
              arg_exit := false; arg_log := None |} [] 0%nat
           [mkCall true ["dbg"] [] true false;
            mkCall true ["dbg"] [] false false]).
  reflexivity.
Defined.

(** ** Leaving the process *)



(** ** The logging step *)

Lemma dict_get_set_eq k v d : dict_get k (dict_set k v d) = Some v.
Proof.
  induction d as [|[k' v'] d IH]; simpl.
  - by rewrite decide_True.
  - destruct (decide (k = k')) as [->|Hne]; simpl.
    + by rewrite decide_True.
    + by rewrite decide_False.
Qed.

Lemma dict_get_set_ne k k' v d :
  k ≠ k' → dict_get k (dict_set k' v d) = dict_get k d.
Proof.
  intros Hne. induction d as [|[k0 v0] d IH]; simpl.
  - by rewrite decide_False.
  - destruct (decide (k' = k0)) as [->|Hne0]; simpl.
    + by rewrite !decide_False.
    + destruct (decide (k = k0)); [done|exact IH].
Qed.

Lemma dict_get_del_ne k k' d :
  k ≠ k' → dict_get k (dict_del k' d) = dict_get k d.
Proof.
  intros Hne. unfold dict_del. induction d as [|[k0 v0] d IH]; [done|].
  rewrite filter_cons. simpl. destruct (decide (k0 ≠ k')) as [Hk|Hk]; simpl.
  - by rewrite IH.
  - apply dec_stable in Hk. subst k0. by rewrite decide_False.
Qed.

Lemma dict_get_keys k d : is_Some (dict_get k d) ↔ k ∈ dict_keys d.
Proof.
  unfold dict_keys. induction d as [|[k0 v0] d IH]; simpl.
  - rewrite elem_of_nil. split; [by intros [? ?]|done].
  - rewrite elem_of_cons. destruct (decide (k = k0)) as [->|Hne].
    + split; [by left|by eexists].
    + rewrite IH. naive_solver.
Qed.

Section frame.
Context (me : addr) (force exit_now : bool) (local_vars : dict).

Lemma py_locals_local_vars var frame :
  dict_get "local_vars" (py_locals me force exit_now local_vars var frame)
  = Some (VDict local_vars).
Proof.
  unfold py_locals, bound_locals, unbound_locals.
  destruct var; simpl;
    rewrite ?dict_get_del_ne by done;
    rewrite ?(dict_get_set_ne "local_vars" "var") by done;
    apply dict_get_set_eq.
Qed.

Lemma py_locals_other k var frame :
  k ∉ own_names →
  dict_get k (py_locals me force exit_now local_vars var frame)
  = dict_get k frame.
Proof.
  unfold own_names. rewrite !elem_of_cons, elem_of_nil. intros Hk.
  unfold py_locals, bound_locals, unbound_locals.
  destruct var; simpl;
    rewrite ?dict_get_del_ne by naive_solver;
    rewrite ?dict_get_set_ne by naive_solver; done.
Qed.

Lemma copy_locals_other k keys :
  k ∉ own_names →
  (∀ k', k' ∈ keys → is_Some (dict_get k' local_vars)) →
  ∀ var frame,
    dict_get k (copy_locals me force exit_now local_vars keys var frame).1
    = if decide (k ∈ keys) then dict_get k local_vars
      else dict_get k frame.
Proof.
  intros Hk. induction keys as [|k0 keys IH]; intros Hkeys var frame.
  - cbn [copy_locals fst]. by rewrite decide_False by apply not_elem_of_nil.
  - cbn [copy_locals]. rewrite IH by (intros; apply Hkeys; by right).
    destruct (Hkeys k0) as [v Hv]; [by left|]. rewrite Hv.
    destruct (decide (k ∈ keys)) as [Hin|Hnin].
    + rewrite decide_True by (by right). done.
    + destruct (decide (k = k0)) as [->|Hne].
      * rewrite decide_True by (by left). by rewrite dict_get_set_eq.
      * rewrite decide_False by (rewrite elem_of_cons; naive_solver).
        rewrite dict_get_set_ne by done. by apply py_locals_other.
Qed.

(** What the log function is given: the caller's variables under
    [local_vars], and each of them under its own name too unless
    [break_here] uses that name. *)
Lemma locals_at_log_spec :
  dict_get "local_vars" (locals_at_log me force exit_now local_vars)
  = Some (VDict local_vars) ∧
  ∀ k, k ∉ own_names →
    dict_get k (locals_at_log me force exit_now local_vars)
    = dict_get k local_vars.
Proof.
  unfold locals_at_log.
  pose proof (λ k Hk, copy_locals_other k (dict_keys local_vars) Hk
    (λ k' Hk', proj2 (dict_get_keys k' local_vars) Hk') None []) as Hcopy.
  destruct (copy_locals _ _ _ _ _ _ _) as [frame var]. split.
  - apply py_locals_local_vars.
  - intros k Hk. rewrite py_locals_other by done.
    specialize (Hcopy k Hk). simpl in Hcopy. rewrite Hcopy.
    case_decide as Hin; [done|].
    destruct (dict_get k local_vars) eqn:Hg; [|done].
    destruct Hin. apply dict_get_keys. by eexists.
Qed.

End frame.

(** C8, as the code has it. When [log] is set, [break_here] starts with
    exactly one [logging.debug], whether or not it then goes for the
    console: of the string itself when [log] is a string; of the string
    the function returns on the [locals()] of [break_here] (which holds
    the caller's variables) when [log] is a function object; and of the
    object itself, not called, when [log] is a callable of another kind. *)
Theorem break_here_logs (ipython : bool) (active_tags : list string)
    (me : addr) (self : Breakpoint) (local_vars : dict)
    (force exit_now : bool) (d : log_directive) :
  log self = Some d →
  let r := break_here ipython active_tags me self local_vars force exit_now in
  let captured := locals_at_log me force exit_now local_vars in
  let message :=
    match d with
    | LogStr s => Text s
    | LogFunction f => Text (f captured)
    | LogCallable _ => Object d
    end in
  (∃ rest, r.1.2 = Debug message :: rest ∧ ∀ m, Debug m ∉ rest) ∧
  dict_get "local_vars" captured = Some (VDict local_vars) ∧
  (∀ k, k ∉ own_names → dict_get k captured = dict_get k local_vars).
Proof.
  intros Hd r captured message.
  assert (Hl : log_events me self local_vars force exit_now = [Debug message]).
  { unfold log_events. rewrite Hd. by destruct d. }
  split; [|apply locals_at_log_spec].
  subst r. destruct (wanted active_tags self force && quota_ok self) eqn:Hc.
  - rewrite break_here_fire by done. simpl. rewrite Hl. simpl.
    eexists. split; [done|]. intros m. rewrite elem_of_app.
    intros [H|H].
    + case_bool_decide; set_solver.
    + destruct ipython; set_solver.
  - rewrite break_here_skip by done. simpl. rewrite Hl.
    eexists. split; [done|]. intros m. apply not_elem_of_nil.
Qed.

Lemma break_here_logs_witness :
  ∃ rest,
    (break_here true [] 0%nat
       (Breakpoint_init
          {| arg_tags := []; arg_activate_tags := ActivateBool true;
             arg_activate := false; arg_max_usage := Some 10;
             arg_exit := false;
             arg_log := Some (LogFunction
               (λ vars, match dict_get "step" vars with
                        | Some (VStr s) => s | _ => "?" end)) |} []).2
       [("step", VStr "load")] false false).1.2
    = Debug (Text "load") :: rest.
Proof.
  destruct (break_here_logs true [] 0%nat
       (Breakpoint_init
          {| arg_tags := []; arg_activate_tags := ActivateBool true;
             arg_activate := false; arg_max_usage := Some 10;
             arg_exit := false;
             arg_log := Some (LogFunction
               (λ vars, match dict_get "step" vars with
                        | Some (VStr s) => s | _ => "?" end)) |} []).2
       [("step", VStr "load")] false false _ eq_refl)
    as ((rest & Hr & _) & _ & _).
  exists rest. exact Hr.
Defined.

(** C8 as stated fails for a callable that is not a function object: a
    Breakpoint whose [log] is such a callable logs the object and never
    the string a call of it would return. *)
Lemma break_here_logs_callable_uninvoked :
  let describe := λ _ : dict, "at the breakpoint" in
  let bp :=
    (Breakpoint_init
       {| arg_tags := []; arg_activate_tags := ActivateBool true;
          arg_activate := false; arg_max_usage := Some 10;
          arg_exit := false; arg_log := Some (LogCallable describe) |} []).2 in
  let r := break_here true [] 0%nat bp [] true false in
  callable (LogCallable describe) = true ∧
  r.1.2 = [Debug (Object (LogCallable describe)); Embed] ∧
  Debug (Text (describe (locals_at_log 0%nat true false []))) ∉ r.1.2.
Proof.
  simpl. split_and!; [done..|].
  rewrite !elem_of_cons, elem_of_nil. intros [H|[H|H]]; done.
Qed.

(** ** The decorator and the registry *)

(** No operation of the module stores into [func_breakpoints]. *)
Lemma func_breakpoint_init_registry a w :
  func_breakpoints (func_breakpoint_init a w).1 = func_breakpoints w.
Proof. done. Qed.

Lemma func_breakpoint_call_registry self func w w' f :
  func_breakpoint_call self func w = Some (w', f) →
  func_breakpoints w' = func_breakpoints w.
Proof.
  unfold func_breakpoint_call.
  destruct (heap w !! self) as [[|fb]|]; try done.
  simpl. destruct (func_breakpoints w !! "inner"); [by intros [= <- _]|].
  destruct (Breakpoint_init (args fb) (active_breakpoints w)).
  by intros [= <- _].
Qed.

Lemma inner_call_registry ipython f args kwargs w w' events res :
  inner_call ipython f args kwargs w = Some (w', events, res) →
  func_breakpoints w' = func_breakpoints w.
Proof.
  unfold inner_call.
  destruct (heap w !! inner_self f) as [[|fb]|]; try done.
  destruct (breakpoint fb) as [b|]; try done.
  destruct (heap w !! b) as [[bp|]|]; try done.
  destruct (break_here _ _ _ _ _ _ _) as [[bp' evs] out].
  by intros [= <- _ _].
Qed.

(** The key that [__call__] looks up is the name [inner] has when it is
    defined, not the name of the decorated function; with no entry under
    it, the decorator gets a Breakpoint of its own, at a new address. *)
Lemma func_breakpoint_call_fresh self func w fb :
  heap w !! self = Some (OWrapper fb) →
  func_breakpoints w !! "inner" = None →
  ∃ w' f,
    func_breakpoint_call self func w = Some (w', f) ∧
    inner_name f = fn_name func ∧
    breakpoint_of self w' = Some (length (heap w)) ∧
    heap w !! length (heap w) = None ∧
    breaks_at (length (heap w)) w' = Some 0.
Proof.
  intros Hself Hreg. unfold func_breakpoint_call. rewrite Hself.
  cbn [inner_name]. rewrite Hreg.
  destruct (Breakpoint_init (args fb) (active_breakpoints w))
    as [active' bp] eqn:Hinit.
  assert (Hlt : (self < length (heap w))%nat) by by eapply lookup_lt_Some.
  eexists _, _. split; [done|]. simpl. split; [done|].
  unfold breakpoint_of, breaks_at. simpl.
  rewrite list_lookup_insert_eq by (rewrite length_app; simpl; lia).
  split; [done|]. split; [by apply lookup_ge_None|].
  rewrite list_lookup_insert_ne by lia.
  rewrite lookup_app_r, Nat.sub_diag by lia. simpl.
  by replace bp with (Breakpoint_init (args fb) (active_breakpoints w)).2
    by by rewrite Hinit.
Qed.

(** C2, on the code. Two decorators with always-active Breakpoints are
    applied, in a module just imported, to two functions both named [f].
    Both wrapped functions are named [f]; the registry is still empty;
    each decorator holds a Breakpoint of its own; and one call of the
    first wrapped function counts one use on the first Breakpoint and
    none on the second. *)
Theorem same_name_wrappers_separate_breakpoints :
  let a :=
    {| arg_tags := []; arg_activate_tags := ActivateBool true;
       arg_activate := true; arg_max_usage := Some 10;
       arg_exit := false; arg_log := None |} in
  let f := mkFunction "f" (λ _ _, VInt 1) in
  let g := mkFunction "f" (λ _ _, VInt 2) in
  let '(w1, d1) := func_breakpoint_init a empty_world in
  let '(w2, d2) := func_breakpoint_init a w1 in
  ∃ w3 f' w4 g' w5 events,
    func_breakpoint_call d1 f w2 = Some (w3, f') ∧
    func_breakpoint_call d2 g w3 = Some (w4, g') ∧
    inner_call true f' [VInt 7] [] w4 = Some (w5, events, Value (VInt 1)) ∧
    inner_name f' = "f" ∧ inner_name g' = "f" ∧
    func_breakpoints w4 = ∅ ∧ func_breakpoints w5 = ∅ ∧
    breakpoint_of d1 w5 = Some 2%nat ∧
    breakpoint_of d2 w5 = Some 3%nat ∧
    events = [Embed] ∧
    breaks_at 2%nat w5 = Some 1 ∧
    breaks_at 3%nat w5 = Some 0.
Proof.
  simpl. eexists _, _, _, _, _, _.
  split; [reflexivity|]. split; [reflexivity|]. split; [reflexivity|].
  repeat split.
Qed.

(** ** Two runs, evaluated *)

(** [Breakpoint(tags=["dbg"])] activates its own tag when constructed, and
    its first unforced call opens the console and counts one use. *)
Example construct_then_break :
  let '(active_tags, bp) :=
    Breakpoint_init
      {| arg_tags := ["dbg"]; arg_activate_tags := ActivateBool true;
         arg_activate := false; arg_max_usage := Some 10;
         arg_exit := false; arg_log := None |} [] in
  active_tags = ["dbg"] ∧
  break_here true active_tags 0%nat bp [] false false
  = (set_breaks 1 bp, [Embed], Returned).
Proof. split; reflexivity. Qed.

(** [Breakpoint(max_usage=2)] forced three times: the console opens twice,
    the second call warns first, the third does nothing. *)
Example forced_three_times :
  let bp :=
    (Breakpoint_init
       {| arg_tags := []; arg_activate_tags := ActivateBool true;
          arg_activate := false; arg_max_usage := Some 2;
          arg_exit := false; arg_log := None |} []).2 in
  break_here_seq 0%nat bp (replicate 3 (mkCall true [] [] true false))
  = [(set_breaks 1 bp, [Embed], Returned);
     (set_breaks 2 bp, [Warning max_usage_warning; Embed], Returned);
     (set_breaks 2 bp, [], Returned)].
Proof. reflexivity. Qed.

(** * Further properties of the module *)

(** ** The quota, from any state of the counter *)

(** With [max_usage = None] every call that passes the first conjunct of
    the test goes for the console, however many came before: call number
    [i] of a run leaves [breaks] at [breaks self + i + 1], the console
    opens whenever IPython can be imported, and the warning is never
    logged. *)
Theorem unlimited_quota_run (me : addr) (calls : list call) :
  ∀ (self : Breakpoint) (i : nat) c,
    max_usage self = None →
    Forall (λ c, wanted (call_active c) self (call_force c) = true) calls →
    calls !! i = Some c →
    ∃ r, break_here_seq me self calls !! i = Some r ∧
      attempted r ∧
      breaks r.1.1 = breaks self + Z.of_nat i + 1 ∧
      (Embed ∈ r.1.2 ↔ call_ipython c = true) ∧
      ¬ warned r.
Proof.
  induction calls as [|c0 cs IH]; intros self i c Hm Hall Hc; [done|].
  apply Forall_cons in Hall as [Hw Hall].
  assert (Hq : quota_ok self = true) by (unfold quota_ok; by rewrite Hm).
  pose proof (break_here_config (call_ipython c0) (call_active c0) me self
                (call_locals c0) (call_force c0) (call_exit c0))
    as (Ht & Ha & Hmx & _ & _).
  pose proof (breaks_after (call_ipython c0) (call_active c0) me self
                (call_locals c0) (call_force c0) (call_exit c0)) as Hb.
  rewrite Hw, Hq in Hb. simpl in Hb.
  destruct i as [|i]; simpl in Hc |- *.
  - injection Hc as <-. eexists. split; [done|].
    unfold break_here_call.
    rewrite attempted_iff, embed_iff, warned_iff, Hw, Hq, Hm. simpl.
    split_and!; [done | lia | naive_solver | naive_solver].
  - destruct (IH (break_here_call me self c0).1.1 i c) as (r & Hr & H1 & H2 & H3);
      [by (unfold break_here_call; rewrite Hmx) | | done |].
    { eapply Forall_impl; [exact Hall|]. intros c' Hc'. simpl in Hc'.
      unfold break_here_call. by rewrite (wanted_same_config _ _ self). }
    exists r. split; [done|]. split; [done|]. split; [|done].
    rewrite H2. unfold break_here_call. lia.
Qed.

Lemma unlimited_quota_run_witness :
  ∃ r,
    break_here_seq 0%nat
      (Breakpoint_init
         {| arg_tags := []; arg_activate_tags := ActivateBool true;
            arg_activate := true; arg_max_usage := None;
            arg_exit := false; arg_log := None |} []).2
      (replicate 40 (mkCall true [] [] false false)) !! 39%nat = Some r ∧
    attempted r ∧ breaks r.1.1 = 40.
Proof.
  destruct (unlimited_quota_run 0%nat
              (replicate 40 (mkCall true [] [] false false))
              (Breakpoint_init
                 {| arg_tags := []; arg_activate_tags := ActivateBool true;
                    arg_activate := true; arg_max_usage := None;
                    arg_exit := false; arg_log := None |} []).2
              39%nat (mkCall true [] [] false false)
              eq_refl ltac:(repeat constructor) eq_refl)
    as (r & Hr & Ha & Hb & _).
  exists r. split; [exact Hr|]. split; [exact Ha|exact Hb].
Defined.

(** Assigning [breaks] re-arms an instance, as the warning says: after
    [self.breaks = k] on an instance with [max_usage = N], call number [i]
    of a run of calls that pass the first conjunct goes for the console
    exactly when [k + i < N]; the warning comes with the call that makes
    [breaks] reach [N]. *)
Theorem reset_breaks_rearms (me : addr) (N k : Z) (self : Breakpoint)
    (calls : list call) :
  max_usage self = Some N →
  Forall (λ c, wanted (call_active c) self (call_force c) = true) calls →
  ∀ (i : nat) c, calls !! i = Some c →
    ∃ r, break_here_seq me (set_breaks k self) calls !! i = Some r ∧
      breaks r.1.1 = Z.max k (Z.min (k + Z.of_nat i + 1) N) ∧
      (attempted r ↔ k + Z.of_nat i < N) ∧
      (warned r ↔ k + Z.of_nat i + 1 = N).
Proof.
  intros Hm Hall i c Hc.
  destruct (break_here_seq_lookup me (set_breaks k self) calls i c Hc)
    as [r Hr].
  exists r. split; [exact Hr|].
  destruct (break_here_seq_quota me N calls (set_breaks k self) i c r)
    as (_ & H2 & H3 & _ & H5); try done.
Qed.

Lemma reset_breaks_rearms_witness :
  ∃ r,
    break_here_seq 0%nat
      (set_breaks 0
         (set_breaks 10 (Breakpoint_init default_args []).2))
      [mkCall true [] [] true false] !! 0%nat = Some r ∧
    attempted r ∧ breaks r.1.1 = 1.
Proof.
  destruct (reset_breaks_rearms 0%nat 10 0
              (set_breaks 10 (Breakpoint_init default_args []).2)
              [mkCall true [] [] true false]
              eq_refl ltac:(repeat constructor)
              0%nat (mkCall true [] [] true false) eq_refl)
    as (r & Hr & Hb & Ha & _).
  exists r. split; [exact Hr|]. split; [|exact Hb].
  apply Ha. simpl. lia.
Defined.

(** ** The counter counts the uses *)

Lemma log_events_is_embed me self local_vars force exit_now :
  existsb is_embed (log_events me self local_vars force exit_now) = false.
Proof. unfold log_events. by destruct (log self) as [[]|]. Qed.

Lemma went_for_console_break_here ipython active_tags me self local_vars
    force exit_now :
  went_for_console
    (break_here ipython active_tags me self local_vars force exit_now)
  = wanted active_tags self force && quota_ok self.
Proof.
  unfold went_for_console.
  destruct (wanted active_tags self force && quota_ok self) eqn:Hc.
  - rewrite break_here_fire by done. simpl.
    rewrite !existsb_app, log_events_is_embed.
    destruct ipython; case_bool_decide; simpl; rewrite ?orb_true_r; done.
  - rewrite break_here_skip by done. simpl.
    rewrite log_events_is_embed. unfold exit_check.
    by destruct (exit self || exit_now).
Qed.

Lemma final_state_cons self r rest :
  final_state self (r :: rest) = final_state r.1.1 rest.
Proof. unfold final_state. rewrite last_cons. by destruct (last rest). Qed.

Lemma uses_cons r rest :
  uses (r :: rest) = ((if went_for_console r then 1 else 0) + uses rest)%nat.
Proof.
  unfold uses. rewrite filter_cons.
  destruct (went_for_console r); by case_decide.
Qed.

(** In any run of calls, triggering or not, [breaks] grows by exactly the
    number of calls that went for the console, a call that raised for want
    of IPython included; and on an instance that starts within an integer
    [max_usage] that number is at most what was left of the quota. *)
Theorem breaks_counts_uses (me : addr) (calls : list call) :
  ∀ self : Breakpoint,
    let results := break_here_seq me self calls in
    breaks (final_state self results) = breaks self + Z.of_nat (uses results) ∧
    Forall (λ r, went_for_console r = true ↔ attempted r) results ∧
    (∀ N, max_usage self = Some N → breaks self ≤ N →
          Z.of_nat (uses results) ≤ N - breaks self).
Proof.
  induction calls as [|c cs IH]; intros self results.
  - subst results. unfold final_state, uses. simpl.
    split_and!; [lia | by apply Forall_nil | intros; lia].
  - subst results. cbn [break_here_seq].
    set (r := break_here_call me self c).
    destruct (IH r.1.1) as (IH1 & IH2 & IH3).
    assert (Hg : went_for_console r
                 = wanted (call_active c) self (call_force c) && quota_ok self)
      by apply went_for_console_break_here.
    pose proof (breaks_after (call_ipython c) (call_active c) me self
                  (call_locals c) (call_force c) (call_exit c)) as Hb.
    fold (break_here_call me self c) in Hb. fold r in Hb. rewrite <- Hg in Hb.
    rewrite final_state_cons, uses_cons, IH1, Hb. split_and!.
    + destruct (went_for_console r); lia.
    + apply Forall_cons. split; [|exact IH2].
      rewrite Hg. unfold r, break_here_call. by rewrite attempted_iff.
    + intros N Hm Hle.
      pose proof (break_here_config (call_ipython c) (call_active c) me self
                    (call_locals c) (call_force c) (call_exit c))
        as (_ & _ & Hmx & _ & _).
      fold (break_here_call me self c) in Hmx. fold r in Hmx.
      assert (Hlt : went_for_console r = true → breaks self < N).
      { rewrite Hg, andb_true_iff. intros [_ Hq]. unfold quota_ok in Hq.
        rewrite Hm in Hq. by apply bool_decide_eq_true in Hq. }
      specialize (IH3 N). rewrite Hmx, Hb in IH3.
      destruct (went_for_console r); [specialize (Hlt eq_refl)|];
        specialize (IH3 Hm); lia.
Qed.

Lemma breaks_counts_uses_witness :
  Z.of_nat
    (uses (break_here_seq 0%nat
             (Breakpoint_init
                {| arg_tags := ["dbg"]; arg_activate_tags := ActivateBool false;
                   arg_activate := false; arg_max_usage := Some 2;
                   arg_exit := false; arg_log := None |} []).2
             [mkCall true [] [] false false; mkCall false [] [] true false;
              mkCall true ["dbg"] [] false false;
              mkCall true ["dbg"] [] true false]))
  ≤ 2 - 0.
Proof.
  destruct (breaks_counts_uses 0%nat
             [mkCall true [] [] false false; mkCall false [] [] true false;
              mkCall true ["dbg"] [] false false;
              mkCall true ["dbg"] [] true false]
             (Breakpoint_init
                {| arg_tags := ["dbg"]; arg_activate_tags := ActivateBool false;
                   arg_activate := false; arg_max_usage := Some 2;
                   arg_exit := false; arg_log := None |} []).2)
    as (_ & _ & H).
  apply (H 2); [reflexivity|simpl; lia].
Defined.

(** ** What one call emits, and in which order *)

(** A call emits at most three events, in this order: the debug record
    (exactly when [log] is set), the warning, the console.  So the
    warning, when there is one, is logged before the console opens, and
    nothing is logged after the console. *)
Theorem break_here_event_order (ipython : bool) (active_tags : list string)
    (me : addr) (self : Breakpoint) (local_vars : dict)
    (force exit_now : bool) :
  let r := break_here ipython active_tags me self local_vars force exit_now in
  ∃ logs warns consoles,
    r.1.2 = logs ++ warns ++ consoles ∧
    (log self = None ∧ logs = [] ∨
     is_Some (log self) ∧ ∃ m, logs = [Debug m]) ∧
    (warns = [] ∨ warns = [Warning max_usage_warning]) ∧
    (consoles = [] ∨ consoles = [Embed]).
Proof.
  intros r.
  assert (Hl : log self = None ∧
               log_events me self local_vars force exit_now = [] ∨
               is_Some (log self) ∧
               ∃ m, log_events me self local_vars force exit_now = [Debug m]).
  { unfold log_events. destruct (log self) as [d|]; [right|by left].
    split; [done|]. destruct d; by eexists. }
  subst r. destruct (wanted active_tags self force && quota_ok self) eqn:Hc.
  - rewrite break_here_fire by done. simpl.
    eexists _, _, _. split; [done|]. split; [exact Hl|]. split.
    + case_bool_decide; auto.
    + destruct ipython; auto.
  - rewrite break_here_skip by done. simpl.
    exists (log_events me self local_vars force exit_now), [], [].
    rewrite !app_nil_r. auto.
Qed.

(** ** What a run leaves alone *)

(** No call writes [tags], [active], [max_usage], [exit] or [log], and
    [breaks] never goes down: after call number [i] of any run it lies
    between its first value and that value plus [i + 1]. *)
Theorem break_here_seq_keeps_config (me : addr) (calls : list call) :
  ∀ (self : Breakpoint) (i : nat) r,
    break_here_seq me self calls !! i = Some r →
    tags r.1.1 = tags self ∧ active r.1.1 = active self ∧
    max_usage r.1.1 = max_usage self ∧ exit r.1.1 = exit self ∧
    log r.1.1 = log self ∧
    breaks self ≤ breaks r.1.1 ≤ breaks self + Z.of_nat i + 1.
Proof.
  induction calls as [|c cs IH]; intros self i r Hr; [done|].
  pose proof (break_here_config (call_ipython c) (call_active c) me self
                (call_locals c) (call_force c) (call_exit c))
    as (Ht & Ha & Hm & He & Hl).
  pose proof (breaks_after (call_ipython c) (call_active c) me self
                (call_locals c) (call_force c) (call_exit c)) as Hb.
  assert (Hstep : breaks self
                  ≤ breaks (break_here_call me self c).1.1 ≤ breaks self + 1).
  { unfold break_here_call. rewrite Hb.
    destruct (wanted _ _ _ && quota_ok self); lia. }
  destruct i as [|i]; simpl in Hr.
  - injection Hr as <-. unfold break_here_call in *.
    split_and!; (done || lia).
  - apply IH in Hr as (Ht' & Ha' & Hm' & He' & Hl' & Hb').
    unfold break_here_call in *.
    rewrite Ht', Ha', Hm', He', Hl'. split_and!; (done || lia).
Qed.

Lemma break_here_seq_keeps_config_witness :
  breaks (Breakpoint_init default_args []).2
  ≤ breaks (break_here true [] 0%nat (Breakpoint_init default_args []).2 []
              true false).1.1.
Proof.
  destruct (break_here_seq_keeps_config 0%nat
              [mkCall true [] [] true false]
              (Breakpoint_init default_args []).2 0%nat
              (break_here true [] 0%nat (Breakpoint_init default_args []).2
                 [] true false) eq_refl)
    as (_ & _ & _ & _ & _ & H & _).
  exact H.
Defined.

(** ** Activation never disarms *)

(** A call that goes for the console would also do so after any further
    activations: [activate_breakpoint] can enable a Breakpoint, never
    disable one. *)
Theorem activation_never_disarms (ipython : bool) (active_tags : list string)
    (me : addr) (self : Breakpoint) (local_vars : dict)
    (force exit_now : bool) (batches : list (list string)) :
  attempted
    (break_here ipython active_tags me self local_vars force exit_now) →
  attempted
    (break_here ipython (activate_all batches active_tags) me self local_vars
       force exit_now).
Proof.
  rewrite !attempted_iff, !andb_true_iff, !wanted_spec.
  intros [Hw Hq]. split; [|done].
  destruct Hw as [?|[?|(tag & Ht & Hin)]]; [auto..|].
  right; right. exists tag. rewrite activate_all_concat. split.
  - destruct (tags self); simpl in *; [done|].
    rewrite elem_of_app. by left.
  - rewrite elem_of_app. by left.
Qed.

Lemma activation_never_disarms_witness :
  attempted
    (break_here true (activate_all [["io"]; ["net"]] ["dbg"]) 0%nat
       (Breakpoint_init
          {| arg_tags := ["dbg"]; arg_activate_tags := ActivateBool false;
             arg_activate := false; arg_max_usage := Some 1;
             arg_exit := false; arg_log := None |} []).2
       [] false false).
Proof.
  apply (activation_never_disarms true ["dbg"] 0%nat
           (Breakpoint_init
              {| arg_tags := ["dbg"]; arg_activate_tags := ActivateBool false;
                 arg_activate := false; arg_max_usage := Some 1;
                 arg_exit := false; arg_log := None |} []).2
           [] false false [["io"]; ["net"]]).
  left. apply list_elem_of_In. simpl. auto.
Defined.

(** ** Construction and the first call *)

(** [Breakpoint(...)] extends the global list by the contents of its
    tags when [activate_tags] is [True], by those of the given list when
    it is a list, and by nothing when it is [False] or an empty list.  The
    first unforced call after it, whatever was activated in between, goes
    for the console exactly when the instance is always active or one of
    its tags, as they are by then, is in the global list by then, and
    [max_usage] is [None] or positive.  When [tags] is the global list
    itself, that is when the global list is not empty by then.  With
    [activate_tags=True] and at least one tag at construction only the
    quota decides. *)
Theorem construct_then_first_call (a : init_args) (active0 : list string)
    (batches : list (list string)) (ipython : bool) (me : addr)
    (local_vars : dict) (exit_now : bool) :
  let activated :=
    match arg_activate_tags a with
    | ActivateBool true => deref active0 (arg_tags a)
    | ActivateBool false => []
    | ActivateList l => deref active0 l
    end in
  let active_then := activate_all batches (Breakpoint_init a active0).1 in
  let r :=
    break_here ipython active_then me (Breakpoint_init a active0).2
      local_vars false exit_now in
  let armed :=
    arg_max_usage a = None ∨ ∃ m, arg_max_usage a = Some m ∧ 0 < m in
  (Breakpoint_init a active0).1 = active0 ++ activated ∧
  active_then = active0 ++ activated ++ concat batches ∧
  (attempted r ↔
     (arg_activate a = true ∨
      ∃ tag, tag ∈ deref active_then (arg_tags a) ∧
             (tag ∈ active0 ∨ tag ∈ activated ∨ tag ∈ concat batches)) ∧
     armed) ∧
  (arg_tags a = ActiveBreakpoints →
   (attempted r ↔ (arg_activate a = true ∨ active_then ≠ []) ∧ armed)) ∧
  (arg_activate_tags a = ActivateBool true →
   deref active0 (arg_tags a) ≠ [] →
   (attempted r ↔ armed)).
Proof.
  intros activated active_then r armed.
  assert (Hact : (Breakpoint_init a active0).1 = active0 ++ activated).
  { unfold Breakpoint_init, activate_breakpoint, truthy. subst activated.
    simpl. destruct (arg_activate_tags a) as [[]|l]; simpl;
      rewrite ?app_nil_r; try done.
    case_bool_decide as Hl; simpl; [|done]. by rewrite Hl, app_nil_r. }
  assert (Hthen : active_then = active0 ++ activated ++ concat batches).
  { subst active_then. by rewrite activate_all_concat, Hact, <- app_assoc. }
  assert (Hr : attempted r ↔
     (arg_activate a = true ∨
      ∃ tag, tag ∈ deref active_then (arg_tags a) ∧
             (tag ∈ active0 ∨ tag ∈ activated ∨ tag ∈ concat batches)) ∧
     armed).
  { subst r. rewrite attempted_iff, andb_true_iff, wanted_spec, quota_ok_spec.
    simpl.
    assert (Hin : ∀ tag, tag ∈ active_then ↔
                   tag ∈ active0 ∨ tag ∈ activated ∨ tag ∈ concat batches).
    { intros tag. by rewrite Hthen, !elem_of_app. }
    setoid_rewrite Hin. subst armed. naive_solver. }
  split; [exact Hact|]. split; [exact Hthen|]. split; [exact Hr|]. split.
  - intros Halias. rewrite Hr, Halias. simpl.
    assert (Hne : (∃ tag, tag ∈ active_then ∧
                     (tag ∈ active0 ∨ tag ∈ activated ∨
                      tag ∈ concat batches)) ↔ active_then ≠ []).
    { split.
      - intros (tag & Hin & _) Hnil. rewrite Hnil in Hin.
        by apply elem_of_nil in Hin.
      - intros Hnil. destruct active_then as [|tag rest] eqn:Heq; [done|].
        exists tag. split; [by left|].
        assert (Hin : tag ∈ active0 ++ activated ++ concat batches)
          by (rewrite <- Hthen; by left).
        by rewrite !elem_of_app in Hin. }
    by rewrite Hne.
  - intros Htrue Hne. rewrite Hr. split; [tauto|]. intros Harmed.
    split; [|done]. right.
    assert (Hsub : ∀ tag, tag ∈ deref active0 (arg_tags a) →
                     tag ∈ deref active_then (arg_tags a)).
    { intros tag. destruct (arg_tags a); simpl; [done|].
      rewrite Hthen, elem_of_app. by left. }
    destruct (deref active0 (arg_tags a)) as [|tag tags'] eqn:Htags;
      [done|].
    exists tag. split; [apply Hsub; by left|]. right. left.
    subst activated. rewrite Htrue, ?Htags. by left.
Qed.

Lemma construct_then_first_call_witness :
  attempted
    (break_here true
       (activate_all [["io"]]
          (Breakpoint_init
             {| arg_tags := ["dbg"]; arg_activate_tags := ActivateBool true;
                arg_activate := false; arg_max_usage := Some 10;
                arg_exit := false; arg_log := None |} ["net"]).1) 0%nat
       (Breakpoint_init
          {| arg_tags := ["dbg"]; arg_activate_tags := ActivateBool true;
             arg_activate := false; arg_max_usage := Some 10;
             arg_exit := false; arg_log := None |} ["net"]).2
       [] false false).
Proof.
  destruct (construct_then_first_call
              {| arg_tags := ["dbg"]; arg_activate_tags := ActivateBool true;
                 arg_activate := false; arg_max_usage := Some 10;
                 arg_exit := false; arg_log := None |} ["net"] [["io"]]
              true 0%nat [] false) as (_ & _ & _ & _ & H).
  apply H.
  - reflexivity.
  - discriminate.
  - right. exists 10. split; [reflexivity|lia].
Defined.

(** ** Activations compose *)

(** Activating [T1] and then [T2] is activating [T1 ++ T2]; activating
    nothing changes nothing; and the list is never deduplicated:
    activating the same tags again makes it longer by as many entries. *)
Theorem activate_breakpoint_compose (T1 T2 active_tags : list string) :
  activate_breakpoint T2 (activate_breakpoint T1 active_tags).2
  = activate_breakpoint (T1 ++ T2) active_tags ∧
  activate_breakpoint [] active_tags = (active_tags, active_tags) ∧
  length (activate_breakpoint T1 (activate_breakpoint T1 active_tags).2).2
  = (length active_tags + 2 * length T1)%nat.
Proof.
  unfold activate_breakpoint. simpl. split_and!.
  - by rewrite app_assoc.
  - by rewrite app_nil_r.
  - rewrite !length_app. lia.
Qed.

(** ** The names [break_here] keeps for itself *)

Lemma dict_get_del_eq k d : dict_get k (dict_del k d) = None.
Proof.
  unfold dict_del. induction d as [|[k0 v0] d IH]; [done|].
  rewrite filter_cons. simpl. destruct (decide (k0 ≠ k)) as [Hk|Hk]; simpl.
  - by rewrite decide_False.
  - exact IH.
Qed.

Lemma copy_locals_var me force exit_now local_vars keys :
  ∀ var frame,
    (copy_locals me force exit_now local_vars keys var frame).2
    = match last keys with Some k => Some k | None => var end.
Proof.
  induction keys as [|k keys IH]; intros var frame; [done|].
  cbn [copy_locals]. rewrite IH, last_cons. by destruct (last keys).
Qed.

(** The dictionary handed to a log function holds [break_here]'s own
    [self], [force] and [exit] under these names, whatever the caller has
    under them; never a key [log] or [IPython]; and under [var] the name
    of the caller's last variable, if it has any. *)
Theorem log_function_sees_own_names (me : addr) (force exit_now : bool)
    (local_vars : dict) :
  let captured := locals_at_log me force exit_now local_vars in
  dict_get "self" captured = Some (VRef me) ∧
  dict_get "force" captured = Some (VBool force) ∧
  dict_get "exit" captured = Some (VBool exit_now) ∧
  dict_get "log" captured = None ∧
  dict_get "IPython" captured = None ∧
  dict_get "var" captured = VStr <$> last (dict_keys local_vars).
Proof.
  intros captured. subst captured. unfold locals_at_log.
  pose proof (copy_locals_var me force exit_now local_vars
                (dict_keys local_vars) None []) as Hvar.
  destruct (copy_locals _ _ _ _ _ _ _) as [frame var]. simpl in Hvar.
  assert (Hv : var = last (dict_keys local_vars)).
  { rewrite Hvar. by destruct (last (dict_keys local_vars)). }
  rewrite <- Hv. clear Hvar Hv.
  unfold py_locals, bound_locals, unbound_locals.
  destruct var as [k|]; simpl.
  - split_and!.
    + rewrite !dict_get_del_ne by done.
      rewrite !(dict_get_set_ne "self") by done. apply dict_get_set_eq.
    + rewrite !dict_get_del_ne by done.
      rewrite !(dict_get_set_ne "force") by done. apply dict_get_set_eq.
    + rewrite !dict_get_del_ne by done.
      rewrite !(dict_get_set_ne "exit") by done. apply dict_get_set_eq.
    + rewrite (dict_get_del_ne "log" "IPython") by done.
      apply dict_get_del_eq.
    + apply dict_get_del_eq.
    + rewrite !dict_get_del_ne by done. apply dict_get_set_eq.
  - split_and!.
    + rewrite !dict_get_del_ne by done.
      rewrite !(dict_get_set_ne "self") by done. apply dict_get_set_eq.
    + rewrite !dict_get_del_ne by done.
      rewrite !(dict_get_set_ne "force") by done. apply dict_get_set_eq.
    + rewrite !dict_get_del_ne by done.
      rewrite !(dict_get_set_ne "exit") by done. apply dict_get_set_eq.
    + rewrite (dict_get_del_ne "log" "IPython") by done.
      apply dict_get_del_eq.
    + apply dict_get_del_eq.
    + rewrite !dict_get_del_ne by done. apply dict_get_del_eq.
Qed.

(** ** Programs against the module: what every run keeps *)

Lemma same_object_later_refl o : same_object_later o o.
Proof. destruct o; simpl; [|done]. unfold same_breakpoint_later. by split_and!. Qed.

Lemma same_object_later_trans o1 o2 o3 :
  same_object_later o1 o2 → same_object_later o2 o3 →
  same_object_later o1 o3.
Proof.
  destruct o1, o2, o3; simpl; try done.
  - unfold same_breakpoint_later.
    intros (-> & -> & -> & -> & -> & ?) (-> & -> & -> & -> & -> & ?).
    split_and!; (done || lia).
  - congruence.
Qed.

Lemma later_world_refl w : later_world w w.
Proof.
  split_and!; [done..|]. intros a o Ho. exists o. split; [done|].
  apply same_object_later_refl.
Qed.

Lemma later_world_trans w1 w2 w3 :
  later_world w1 w2 → later_world w2 w3 → later_world w1 w3.
Proof.
  intros (Hr1 & Hp1 & Hh1) (Hr2 & Hp2 & Hh2). split_and!.
  - congruence.
  - by etrans.
  - intros a o Ho. destruct (Hh1 a o Ho) as (o' & Ho' & Hs).
    destruct (Hh2 a o' Ho') as (o'' & Ho'' & Hs').
    exists o''. split; [done|]. by eapply same_object_later_trans.
Qed.

Lemma heap_append_later (h : list object) (o1 : object) :
  ∀ (a : addr) o, h !! a = Some o →
    ∃ o', (h ++ [o1]) !! a = Some o' ∧ same_object_later o o'.
Proof.
  intros a o Ho. exists o. split; [by apply lookup_app_l_Some|].
  apply same_object_later_refl.
Qed.

Lemma heap_insert_later (h : list object) (b : addr) (ob ob' : object) :
  h !! b = Some ob → same_object_later ob ob' →
  ∀ (a : addr) o, h !! a = Some o →
    ∃ o', <[b := ob']> h !! a = Some o' ∧ same_object_later o o'.
Proof.
  intros Hb Hs a o Ho. destruct (decide (a = b)) as [->|Hne].
  - exists ob'. split.
    + apply list_lookup_insert_eq. by eapply lookup_lt_Some.
    + by replace o with ob by congruence.
  - exists o. split; [by rewrite list_lookup_insert_ne|].
    apply same_object_later_refl.
Qed.

Lemma break_here_later ipython active_tags me self local_vars force exit_now :
  same_breakpoint_later self
    (break_here ipython active_tags me self local_vars force exit_now).1.1.
Proof.
  pose proof (break_here_config ipython active_tags me self local_vars force
                exit_now) as (? & ? & ? & ? & ?).
  unfold same_breakpoint_later. split_and!; try done.
  rewrite breaks_after. destruct (wanted _ _ _ && quota_ok self); lia.
Qed.

Lemma Breakpoint_init_prefix a active_tags :
  active_tags `prefix_of` (Breakpoint_init a active_tags).1.
Proof.
  unfold Breakpoint_init, activate_breakpoint. simpl.
  destruct (truthy active_tags (arg_activate_tags a)); [|done].
  destruct (arg_activate_tags a); by apply prefix_app_r.
Qed.

Lemma func_breakpoint_call_later self func w w' f :
  func_breakpoint_call self func w = Some (w', f) → later_world w w'.
Proof.
  unfold func_breakpoint_call.
  destruct (heap w !! self) as [[|fb]|] eqn:Hself; try done.
  cbn [inner_name].
  destruct (func_breakpoints w !! "inner") as [b|].
  - intros [= <- _]. split_and!; simpl; [done..|].
    by apply (heap_insert_later _ _ (OWrapper fb)).
  - pose proof (Breakpoint_init_prefix (args fb) (active_breakpoints w)) as Hp.
    destruct (Breakpoint_init (args fb) (active_breakpoints w))
      as [active' bp].
    intros [= <- _]. split_and!; simpl; [done..|].
    intros a o Ho.
    destruct (heap_append_later (heap w) (OBreakpoint bp) a o Ho)
      as (o' & Ho' & Hs).
    destruct (heap_insert_later (heap w ++ [OBreakpoint bp]) self
                (OWrapper fb)
                (OWrapper {| args := args fb;
                             breakpoint := Some (length (heap w)) |})
                (lookup_app_l_Some _ _ _ _ Hself) eq_refl a o' Ho')
      as (o'' & Ho'' & Hs').
    exists o''. split; [done|]. by eapply same_object_later_trans.
Qed.

Lemma inner_call_later ipython f args kwargs w w' events res :
  inner_call ipython f args kwargs w = Some (w', events, res) →
  later_world w w'.
Proof.
  unfold inner_call.
  destruct (heap w !! inner_self f) as [[|fb]|]; try done.
  destruct (breakpoint fb) as [b|]; try done.
  destruct (heap w !! b) as [[bp|]|] eqn:Hb; try done.
  pose proof (break_here_later ipython (active_breakpoints w) b bp
                (inner_locals f args kwargs) false false) as Hl.
  destruct (break_here _ _ _ _ _ _ _) as [[bp' evs] out].
  intros [= <- _ _]. split_and!; simpl; [done..|].
  by apply (heap_insert_later _ _ (OBreakpoint bp)).
Qed.

Lemma perform_later w act : later_world w (perform w act).
Proof.
  destruct act as [T|a|ipython b lv force exit_now|a|self func
                   |ipython f args kwargs]; cbn [perform].
  - split_and!; simpl; [done|by apply prefix_app_r|].
    intros a o Ho. exists o. split; [done|apply same_object_later_refl].
  - pose proof (Breakpoint_init_prefix a (active_breakpoints w)) as Hp.
    destruct (Breakpoint_init a (active_breakpoints w)) as [active' bp].
    simpl in Hp. split_and!; simpl; [done..|]. apply heap_append_later.
  - destruct (heap w !! b) as [[bp|]|] eqn:Hb; try apply later_world_refl.
    split_and!; simpl; [done..|].
    apply (heap_insert_later _ _ (OBreakpoint bp)); [done|].
    apply break_here_later.
  - split_and!; simpl; [done..|]. apply heap_append_later.
  - destruct (func_breakpoint_call self func w) as [[w' f]|] eqn:Hc;
      [|apply later_world_refl].
    by eapply func_breakpoint_call_later.
  - destruct (inner_call ipython f args kwargs w) as [[[w' evs] res]|] eqn:Hc;
      [|apply later_world_refl].
    by eapply inner_call_later.
Qed.

(** Whatever a program does with the module, in whatever order:
    [func_breakpoints] is never written; [active_breakpoints] only grows
    at its end; and every object stays at its address, a decorator with
    its arguments, a Breakpoint with its configuration and with [breaks]
    no lower than before.  Its [tags] stays the same list object: a list
    of the client's has the contents it had, while for a Breakpoint built
    on [active_breakpoints] itself the tags are that list as it has
    grown. *)
Theorem perform_all_keeps (acts : list action) (w : World) :
  let w' := perform_all w acts in
  func_breakpoints w' = func_breakpoints w ∧
  active_breakpoints w `prefix_of` active_breakpoints w' ∧
  (length (heap w) ≤ length (heap w'))%nat ∧
  (∀ (b : addr) bp, heap w !! b = Some (OBreakpoint bp) →
     ∃ bp', heap w' !! b = Some (OBreakpoint bp') ∧
       tags bp' = tags bp ∧ active bp' = active bp ∧
       max_usage bp' = max_usage bp ∧ exit bp' = exit bp ∧
       log bp' = log bp ∧ breaks bp ≤ breaks bp' ∧
       (∀ l, tags bp = Own l →
             deref (active_breakpoints w') (tags bp') = l) ∧
       (tags bp = ActiveBreakpoints →
        deref (active_breakpoints w') (tags bp') = active_breakpoints w') ∧
       deref (active_breakpoints w) (tags bp)
         `prefix_of` deref (active_breakpoints w') (tags bp')) ∧
  (∀ (d : addr) fb, heap w !! d = Some (OWrapper fb) →
     ∃ fb', heap w' !! d = Some (OWrapper fb') ∧ args fb' = args fb).
Proof.
  intros w'.
  assert (Hl : later_world w w').
  { subst w'. revert w. induction acts as [|act acts IH]; intros w.
    - apply later_world_refl.
    - simpl. eapply later_world_trans; [apply perform_later|apply IH]. }
  destruct Hl as (Hr & Hp & Hh). split_and!; [done..| | |].
  - destruct (decide (length (heap w) ≤ length (heap w'))%nat) as [|Hgt];
      [done|].
    destruct (lookup_lt_is_Some_2 (heap w) (length (heap w') )) as [o Ho];
      [lia|].
    destruct (Hh _ _ Ho) as (o' & Ho' & _).
    apply lookup_lt_Some in Ho'. lia.
  - intros b bp Hb. destruct (Hh _ _ Hb) as ([bp'|] & Hb' & Hs); [|done].
    exists bp'. split; [done|].
    destruct Hs as (Ht & Ha & Hm & He & Hl & Hbr).
    rewrite Ht. split_and!; try done.
    + by intros l ->.
    + by intros ->.
    + by destruct (tags bp).
  - intros d fb Hd. destruct (Hh _ _ Hd) as ([|fb'] & Hd' & Hs); [done|].
    exists fb'. by split.
Qed.

Lemma perform_all_keeps_witness :
  ∃ bp',
    heap (perform_all (perform_all empty_world [Construct default_args])
            [Activate ["dbg"]; Fire true 0%nat [] true false;
             Decorator default_args;
             Decorate 1%nat (mkFunction "f" (λ _ _, VNone))]) !! 0%nat
    = Some (OBreakpoint bp') ∧ max_usage bp' = Some 10.
Proof.
  destruct (perform_all_keeps
              [Activate ["dbg"]; Fire true 0%nat [] true false;
               Decorator default_args;
               Decorate 1%nat (mkFunction "f" (λ _ _, VNone))]
              (perform_all empty_world [Construct default_args]))
    as (_ & _ & _ & H & _).
  destruct (H 0%nat (Breakpoint_init default_args []).2 eq_refl)
    as (bp' & Hb & _ & _ & Hm & _).
  exists bp'. split; [exact Hb|exact Hm].
Defined.

(** ** Decorating *)

Lemma perform_all_registry acts w :
  func_breakpoints (perform_all w acts) = func_breakpoints w.
Proof.
  revert w. induction acts as [|act acts IH]; intros w; [done|].
  simpl. unfold perform_all in IH. rewrite IH.
  by destruct (perform_later w act) as (? & _).
Qed.

(** In a module state reached from the import by any program, decorating
    a function builds a Breakpoint of its own for it, whatever the
    function is called and whatever was decorated before: the decorator
    then points to a new address holding a Breakpoint with [breaks = 0],
    the tags of its arguments are activated then and there, the registry
    is still empty, and the wrapped function bears the function's name. *)
Theorem decorating_builds_a_breakpoint (acts : list action) (self : addr)
    (func : function) (fb : func_breakpoint) :
  let w := perform_all empty_world acts in
  heap w !! self = Some (OWrapper fb) →
  ∃ w' f,
    func_breakpoint_call self func w = Some (w', f) ∧
    inner_name f = fn_name func ∧ inner_self f = self ∧
    heap w !! length (heap w) = None ∧
    breakpoint_of self w' = Some (length (heap w)) ∧
    heap w' !! length (heap w)
    = Some (OBreakpoint (Breakpoint_init (args fb) (active_breakpoints w)).2) ∧
    active_breakpoints w'
    = (Breakpoint_init (args fb) (active_breakpoints w)).1 ∧
    func_breakpoints w' = ∅.
Proof.
  intros w Hself.
  assert (Hreg : func_breakpoints w = ∅)
    by (subst w; by rewrite perform_all_registry).
  assert (Hlt : (self < length (heap w))%nat) by by eapply lookup_lt_Some.
  unfold func_breakpoint_call. rewrite Hself. cbn [inner_name].
  rewrite Hreg, lookup_empty.
  destruct (Breakpoint_init (args fb) (active_breakpoints w))
    as [active' bp].
  eexists _, _. split; [done|]. simpl. split_and!; try done.
  - by apply lookup_ge_None.
  - unfold breakpoint_of. simpl.
    by rewrite list_lookup_insert_eq by (rewrite length_app; simpl; lia).
  - rewrite list_lookup_insert_ne by lia.
    by rewrite lookup_app_r, Nat.sub_diag by lia.
Qed.

Lemma decorating_builds_a_breakpoint_witness :
  ∃ w' f,
    func_breakpoint_call 0%nat (mkFunction "f" (λ _ _, VNone))
      (perform_all empty_world
         [Decorator default_args; Decorate 0%nat (mkFunction "f" (λ _ _, VNone))])
    = Some (w', f) ∧
    breakpoint_of 0%nat w' = Some 2%nat.
Proof.
  destruct (decorating_builds_a_breakpoint
              [Decorator default_args;
               Decorate 0%nat (mkFunction "f" (λ _ _, VNone))]
              0%nat (mkFunction "f" (λ _ _, VNone))
              {| args := default_args; breakpoint := Some 1%nat |} eq_refl)
    as (w' & f & Hc & _ & _ & _ & Hb & _).
  exists w', f. split; [exact Hc|exact Hb].
Defined.

(** The registry is looked up under the name [inner], not under the name
    of the decorated function: if client code has stored a Breakpoint
    there, every decoration takes that one, constructs nothing and
    activates nothing. *)
Theorem decorating_with_inner_registered (self b : addr) (func : function)
    (fb : func_breakpoint) (w : World) :
  heap w !! self = Some (OWrapper fb) →
  func_breakpoints w !! "inner" = Some b →
  ∃ w' f,
    func_breakpoint_call self func w = Some (w', f) ∧
    inner_name f = fn_name func ∧
    breakpoint_of self w' = Some b ∧
    length (heap w') = length (heap w) ∧
    active_breakpoints w' = active_breakpoints w ∧
    func_breakpoints w' = func_breakpoints w ∧
    (∀ a, a ≠ self → heap w' !! a = heap w !! a).
Proof.
  intros Hself Hreg.
  assert (Hlt : (self < length (heap w))%nat) by by eapply lookup_lt_Some.
  unfold func_breakpoint_call. rewrite Hself. cbn [inner_name]. rewrite Hreg.
  eexists _, _. split; [done|]. simpl. split_and!; try done.
  - unfold breakpoint_of. simpl. by rewrite list_lookup_insert_eq.
  - by rewrite length_insert.
  - intros a Ha. by rewrite list_lookup_insert_ne.
Qed.

Lemma decorating_with_inner_registered_witness :
  ∃ w' f,
    func_breakpoint_call 1%nat (mkFunction "load" (λ _ _, VNone))
      {| active_breakpoints := [];
         func_breakpoints := ({[ "inner" := 0%nat ]} : gmap string addr);
         heap := [OBreakpoint (Breakpoint_init default_args []).2;
                  OWrapper {| args := default_args; breakpoint := None |}] |}
    = Some (w', f) ∧
    breakpoint_of 1%nat w' = Some 0%nat.
Proof.
  set (w := {| active_breakpoints := []; func_breakpoints := _; heap := _ |}).
  assert (Hreg : func_breakpoints w !! "inner" = Some 0%nat)
    by apply lookup_singleton_eq.
  destruct (decorating_with_inner_registered 1%nat 0%nat
              (mkFunction "load" (λ _ _, VNone))
              {| args := default_args; breakpoint := None |} w
              eq_refl Hreg)
    as (w' & f & Hc & _ & Hb & _).
  exists w', f. split; [exact Hc|exact Hb].
Defined.

(** ** Calling a wrapped function *)

Lemma wanted_unforced active_tags self :
  wanted active_tags self false
  = active self || any_tag_active active_tags self.
Proof. unfold wanted. by rewrite orb_false_r. Qed.

Lemma inner_call_unfold ipython f args kwargs w fb b bp :
  heap w !! inner_self f = Some (OWrapper fb) →
  breakpoint fb = Some b →
  heap w !! b = Some (OBreakpoint bp) →
  let r := break_here ipython (active_breakpoints w) b bp
             (inner_locals f args kwargs) false false in
  inner_call ipython f args kwargs w
  = Some ({| active_breakpoints := active_breakpoints w;
             func_breakpoints := func_breakpoints w;
             heap := <[b := OBreakpoint r.1.1]> (heap w) |},
          r.1.2,
          match r.2 with
          | Returned => Value (fn_call (inner_func f) args kwargs)
          | Raised e => Raises e
          | Exited => Exits
          end).
Proof.
  intros Hself Hb Hbp r. unfold inner_call. rewrite Hself, Hb, Hbp.
  subst r. by destruct (break_here _ _ _ _ _ _ _) as [[bp' evs] out].
Qed.

(** A call of a wrapped function never forces its Breakpoint and never
    asks for the exit.  With [t] the test of [break_here] for an unforced
    call: the call raises when [t] holds and IPython cannot be imported;
    otherwise it exits, without calling the function, when the Breakpoint
    has [exit] set; otherwise it returns what the function returns on the
    same arguments.  It counts one use exactly when [t] holds, and writes
    nothing but the Breakpoint. *)
Theorem wrapped_call_result (ipython : bool) (f : inner) (args : list value)
    (kwargs : dict) (w : World) (fb : func_breakpoint) (b : addr)
    (bp : Breakpoint) :
  heap w !! inner_self f = Some (OWrapper fb) →
  breakpoint fb = Some b →
  heap w !! b = Some (OBreakpoint bp) →
  let t :=
    (active bp || any_tag_active (active_breakpoints w) bp) && quota_ok bp in
  ∃ w' events,
    inner_call ipython f args kwargs w
    = Some (w', events,
            if t && negb ipython then Raises (PyException ipython_missing)
            else if exit bp then Exits
            else Value (fn_call (inner_func f) args kwargs)) ∧
    breaks_at b w' = Some (if t then breaks bp + 1 else breaks bp) ∧
    active_breakpoints w' = active_breakpoints w ∧
    func_breakpoints w' = func_breakpoints w ∧
    length (heap w') = length (heap w) ∧
    (∀ a, a ≠ b → heap w' !! a = heap w !! a).
Proof.
  intros Hself Hb Hbp t.
  assert (Hlt : (b < length (heap w))%nat) by by eapply lookup_lt_Some.
  rewrite (inner_call_unfold ipython f args kwargs w fb b bp) by done.
  set (r := break_here ipython (active_breakpoints w) b bp
              (inner_locals f args kwargs) false false).
  exists {| active_breakpoints := active_breakpoints w;
            func_breakpoints := func_breakpoints w;
            heap := <[b := OBreakpoint r.1.1]> (heap w) |}, r.1.2.
  subst r. split; [|split_and!; simpl].
  - f_equal. f_equal. subst t. rewrite <- wanted_unforced.
    destruct (wanted (active_breakpoints w) bp false && quota_ok bp) eqn:Hc.
    + rewrite break_here_fire by done. simpl.
      destruct ipython; simpl; [|done].
      unfold exit_check. rewrite orb_false_r. by destruct (exit bp).
    + rewrite break_here_skip by done. simpl.
      unfold exit_check. rewrite orb_false_r. by destruct (exit bp).
  - unfold breaks_at. simpl. rewrite list_lookup_insert_eq by done.
    rewrite breaks_after. subst t. by rewrite wanted_unforced.
  - done.
  - done.
  - by rewrite length_insert.
  - intros a Ha. by rewrite list_lookup_insert_ne.
Qed.

Lemma wrapped_call_result_witness :
  ∃ w' events,
    inner_call false
      {| inner_name := "f"; inner_self := 0%nat;
         inner_func := mkFunction "f" (λ _ _, VInt 5) |} [] []
      {| active_breakpoints := []; func_breakpoints := ∅;
         heap := [OWrapper {| args := default_args;
                              breakpoint := Some 1%nat |};
                  OBreakpoint (Breakpoint_init default_args []).2] |}
    = Some (w', events, Value (VInt 5)).
Proof.
  destruct (wrapped_call_result false
      {| inner_name := "f"; inner_self := 0%nat;
         inner_func := mkFunction "f" (λ _ _, VInt 5) |} [] []
      {| active_breakpoints := []; func_breakpoints := ∅;
         heap := [OWrapper {| args := default_args;
                              breakpoint := Some 1%nat |};
                  OBreakpoint (Breakpoint_init default_args []).2] |}
      {| args := default_args; breakpoint := Some 1%nat |} 1%nat
      (Breakpoint_init default_args []).2 eq_refl eq_refl eq_refl)
    as (w' & events & Hc & _).
  exists w', events. exact Hc.
Defined.

(** A function wrapped with a Breakpoint that has no tags at the time
    of the call and is not always active is not interrupted, since the
    wrapper never forces:
    with no [log] and no [exit] either, as with [func_breakpoint()] and no
    arguments, a call is a plain call of the function and leaves the
    module state as it was. *)
Theorem untagged_wrapper_is_transparent (ipython : bool) (f : inner)
    (args : list value) (kwargs : dict) (w : World) (fb : func_breakpoint)
    (b : addr) (bp : Breakpoint) :
  heap w !! inner_self f = Some (OWrapper fb) →
  breakpoint fb = Some b →
  heap w !! b = Some (OBreakpoint bp) →
  deref (active_breakpoints w) (tags bp) = [] →
  active bp = false → exit bp = false → log bp = None →
  inner_call ipython f args kwargs w
  = Some (w, [], Value (fn_call (inner_func f) args kwargs)).
Proof.
  intros Hself Hb Hbp Ht Ha He Hl.
  rewrite (inner_call_unfold ipython f args kwargs w fb b bp) by done.
  assert (Hc : wanted (active_breakpoints w) bp false && quota_ok bp = false).
  { unfold wanted, any_tag_active. by rewrite Ha, Ht. }
  rewrite break_here_skip by done. simpl.
  unfold log_events, exit_check. rewrite Hl, He. simpl.
  rewrite list_insert_id by done. by destruct w.
Qed.

Lemma untagged_wrapper_is_transparent_witness :
  inner_call true
    {| inner_name := "f"; inner_self := 0%nat;
       inner_func := mkFunction "f" (λ _ _, VInt 5) |} [VInt 1] []
    {| active_breakpoints := ["dbg"]; func_breakpoints := ∅;
       heap := [OWrapper {| args := default_args;
                            breakpoint := Some 1%nat |};
                OBreakpoint (Breakpoint_init default_args []).2] |}
  = Some ({| active_breakpoints := ["dbg"]; func_breakpoints := ∅;
             heap := [OWrapper {| args := default_args;
                                  breakpoint := Some 1%nat |};
                      OBreakpoint (Breakpoint_init default_args []).2] |},
          [], Value (VInt 5)).
Proof.
  apply (untagged_wrapper_is_transparent true
    {| inner_name := "f"; inner_self := 0%nat;
       inner_func := mkFunction "f" (λ _ _, VInt 5) |} [VInt 1] []
    {| active_breakpoints := ["dbg"]; func_breakpoints := ∅;
       heap := [OWrapper {| args := default_args;
                            breakpoint := Some 1%nat |};
                OBreakpoint (Breakpoint_init default_args []).2] |}
    {| args := default_args; breakpoint := Some 1%nat |} 1%nat
    (Breakpoint_init default_args []).2); reflexivity.
Defined.

(** ** One decorator, two functions *)

Lemma func_breakpoint_call_unfold self func w fb :
  heap w !! self = Some (OWrapper fb) →
  func_breakpoints w !! "inner" = None →
  func_breakpoint_call self func w
  = Some ({| active_breakpoints :=
               (Breakpoint_init (args fb) (active_breakpoints w)).1;
             func_breakpoints := func_breakpoints w;
             heap := <[self := OWrapper {| args := args fb;
                                           breakpoint :=
                                             Some (length (heap w)) |}]>
                       (heap w ++
                        [OBreakpoint
                           (Breakpoint_init (args fb)
                              (active_breakpoints w)).2]) |},
          {| inner_name := fn_name func; inner_self := self;
             inner_func := func |}).
Proof.
  intros Hself Hreg. unfold func_breakpoint_call. rewrite Hself.
  cbn [inner_name]. rewrite Hreg.
  by destruct (Breakpoint_init (args fb) (active_breakpoints w)).
Qed.

(** A decorator object applied to a second function forgets the
    Breakpoint it built for the first: [inner] reads [self.breakpoint]
    when it is called, so from then on both wrapped functions run the
    second Breakpoint, and no call of the first wrapped function touches
    the first Breakpoint, which stays at [breaks = 0]. *)
Theorem one_decorator_two_functions (self : addr) (func1 func2 : function)
    (fb : func_breakpoint) (w : World) :
  heap w !! self = Some (OWrapper fb) →
  func_breakpoints w !! "inner" = None →
  ∃ w1 f1 w2 f2,
    func_breakpoint_call self func1 w = Some (w1, f1) ∧
    func_breakpoint_call self func2 w1 = Some (w2, f2) ∧
    breakpoint_of self w1 = Some (length (heap w)) ∧
    breakpoint_of self w2 = Some (S (length (heap w))) ∧
    ∀ ipython args kwargs,
      ∃ w3 events res,
        inner_call ipython f1 args kwargs w2 = Some (w3, events, res) ∧
        breaks_at (length (heap w)) w3 = Some 0 ∧
        ∃ bp2 bp2',
          heap w2 !! S (length (heap w)) = Some (OBreakpoint bp2) ∧
          heap w3 !! S (length (heap w)) = Some (OBreakpoint bp2') ∧
          bp2' = (break_here ipython (active_breakpoints w2)
                    (S (length (heap w))) bp2
                    (inner_locals f1 args kwargs) false false).1.1.
Proof.
  intros Hself Hreg.
  assert (Hlt : (self < length (heap w))%nat) by by eapply lookup_lt_Some.
  set (n := length (heap w)) in *.
  set (bp1 := (Breakpoint_init (args fb) (active_breakpoints w)).2).
  set (a1 := (Breakpoint_init (args fb) (active_breakpoints w)).1).
  set (h1 := <[self := OWrapper {| args := args fb; breakpoint := Some n |}]>
               (heap w ++ [OBreakpoint bp1])).
  set (w1 := {| active_breakpoints := a1;
                func_breakpoints := func_breakpoints w; heap := h1 |}).
  set (i1 := {| inner_name := fn_name func1; inner_self := self;
                inner_func := func1 |}).
  assert (H1 : func_breakpoint_call self func1 w = Some (w1, i1))
    by by rewrite (func_breakpoint_call_unfold self func1 w fb).
  assert (Hn1 : length h1 = S n).
  { subst h1. rewrite length_insert, length_app. simpl. lia. }
  assert (Hself1 : heap w1 !! self
                   = Some (OWrapper {| args := args fb;
                                       breakpoint := Some n |})).
  { simpl. subst h1. apply list_lookup_insert_eq.
    rewrite length_app. simpl. lia. }
  set (bp2 := (Breakpoint_init (args fb) a1).2).
  set (a2 := (Breakpoint_init (args fb) a1).1).
  set (h2 := <[self := OWrapper {| args := args fb;
                                   breakpoint := Some (S n) |}]>
               (h1 ++ [OBreakpoint bp2])).
  set (w2 := {| active_breakpoints := a2;
                func_breakpoints := func_breakpoints w; heap := h2 |}).
  set (i2 := {| inner_name := fn_name func2; inner_self := self;
                inner_func := func2 |}).
  assert (H2 : func_breakpoint_call self func2 w1 = Some (w2, i2)).
  { rewrite (func_breakpoint_call_unfold self func2 w1 _ Hself1 Hreg).
    simpl. by rewrite Hn1. }
  assert (Hself2 : h2 !! self
                   = Some (OWrapper {| args := args fb;
                                       breakpoint := Some (S n) |})).
  { subst h2. apply list_lookup_insert_eq. rewrite length_app. simpl. lia. }
  assert (Hbp2 : h2 !! S n = Some (OBreakpoint bp2)).
  { subst h2. rewrite list_lookup_insert_ne by lia.
    by rewrite lookup_app_r, Hn1, Nat.sub_diag by lia. }
  assert (Hbp12 : h2 !! n = Some (OBreakpoint bp1)).
  { subst h2. rewrite list_lookup_insert_ne by lia.
    rewrite lookup_app_l by lia.
    subst h1. rewrite list_lookup_insert_ne by lia.
    by rewrite lookup_app_r, Nat.sub_diag by lia. }
  exists w1, i1, w2, i2. split; [exact H1|]. split; [exact H2|]. split_and!.
  - unfold breakpoint_of. by rewrite Hself1.
  - unfold breakpoint_of. simpl. by rewrite Hself2.
  - intros ipython args kwargs.
    rewrite (inner_call_unfold ipython i1 args kwargs w2 _ (S n) bp2
               Hself2 eq_refl Hbp2).
    eexists _, _, _. split; [done|]. split.
    + unfold breaks_at. simpl.
      rewrite list_lookup_insert_ne by lia. by rewrite Hbp12.
    + exists bp2. eexists. split; [done|]. split; [|done]. simpl.
      apply list_lookup_insert_eq. by eapply lookup_lt_Some.
Qed.

Lemma one_decorator_two_functions_witness :
  ∃ w1 f1 w2 f2,
    func_breakpoint_call 0%nat (mkFunction "load" (λ _ _, VNone))
      (func_breakpoint_init default_args empty_world).1 = Some (w1, f1) ∧
    func_breakpoint_call 0%nat (mkFunction "save" (λ _ _, VNone)) w1
    = Some (w2, f2) ∧
    breakpoint_of 0%nat w2 = Some 2%nat.
Proof.
  destruct (one_decorator_two_functions 0%nat
              (mkFunction "load" (λ _ _, VNone))
              (mkFunction "save" (λ _ _, VNone))
              {| args := default_args; breakpoint := None |}
              (func_breakpoint_init default_args empty_world).1
              eq_refl eq_refl)
    as (w1 & f1 & w2 & f2 & H1 & H2 & _ & H3 & _).
  exists w1, f1, w2, f2. split; [exact H1|]. split; [exact H2|exact H3].
Defined.

(** ** Decorating, then calling *)

(** The common use.  In a module state reached from the import, a
    decorator whose arguments leave [activate_tags=True], give a list of
    tags that is not empty when the function is decorated, and a quota
    that is [None] or positive: once it has decorated
    a function, the first call of the wrapped function, with IPython
    importable, opens the console, counts one use on the new Breakpoint,
    and then returns what the function returns, or exits without calling
    it if the arguments set [exit]. *)
Theorem decorate_then_call (acts : list action) (self : addr)
    (func : function) (fb : func_breakpoint) (args : list value)
    (kwargs : dict) :
  let w := perform_all empty_world acts in
  heap w !! self = Some (OWrapper fb) →
  arg_activate_tags (core.args fb) = ActivateBool true →
  deref (active_breakpoints w) (arg_tags (core.args fb)) ≠ [] →
  (arg_max_usage (core.args fb) = None ∨
   ∃ m, arg_max_usage (core.args fb) = Some m ∧ 0 < m) →
  ∃ w1 f w2 events,
    func_breakpoint_call self func w = Some (w1, f) ∧
    inner_call true f args kwargs w1
    = Some (w2, events,
            if arg_exit (core.args fb) then Exits
            else Value (fn_call func args kwargs)) ∧
    Embed ∈ events ∧
    breaks_at (length (heap w)) w2 = Some 1.
Proof.
  intros w Hself Hact Htags Harmed.
  assert (Hreg : func_breakpoints w !! "inner" = None).
  { subst w. rewrite perform_all_registry. apply lookup_empty. }
  assert (Hlt : (self < length (heap w))%nat) by by eapply lookup_lt_Some.
  rewrite (func_breakpoint_call_unfold self func w fb) by done.
  set (n := length (heap w)) in *.
  set (bp := (Breakpoint_init (core.args fb) (active_breakpoints w)).2).
  set (a1 := (Breakpoint_init (core.args fb) (active_breakpoints w)).1).
  set (h1 := <[self := OWrapper {| core.args := core.args fb;
                                   breakpoint := Some n |}]>
               (heap w ++ [OBreakpoint bp])).
  set (w1 := {| active_breakpoints := a1;
                func_breakpoints := func_breakpoints w; heap := h1 |}).
  set (f := {| inner_name := fn_name func; inner_self := self;
               inner_func := func |}).
  assert (Hself1 : heap w1 !! inner_self f
                   = Some (OWrapper {| core.args := core.args fb;
                                       breakpoint := Some n |})).
  { simpl. subst h1. apply list_lookup_insert_eq.
    rewrite length_app. simpl. lia. }
  assert (Hbp : heap w1 !! n = Some (OBreakpoint bp)).
  { simpl. subst h1. rewrite list_lookup_insert_ne by lia.
    by rewrite lookup_app_r, Nat.sub_diag by lia. }
  assert (Hc : wanted a1 bp false && quota_ok bp = true).
  { apply andb_true_iff. split.
    - apply wanted_spec. right; right.
      assert (Ha1 : a1 = active_breakpoints w ++
                      deref (active_breakpoints w) (arg_tags (core.args fb))).
      { subst a1. unfold Breakpoint_init, activate_breakpoint.
        by rewrite Hact. }
      destruct (deref (active_breakpoints w) (arg_tags (core.args fb)))
        as [|tag tags'] eqn:Ht; [done|].
      exists tag. split.
      + subst bp. simpl. destruct (arg_tags (core.args fb)); simpl in *.
        * rewrite Ht. by left.
        * rewrite Ha1, elem_of_app. right. by left.
      + rewrite Ha1, elem_of_app. right. by left.
    - apply quota_ok_spec. subst bp. simpl.
      destruct Harmed as [?|(m & ? & ?)]; [by left|right]. by exists m. }
  exists w1, f.
  rewrite (inner_call_unfold true f args kwargs w1 _ n bp Hself1 eq_refl Hbp).
  cbn [active_breakpoints w1].
  rewrite (break_here_fire true a1 n bp (inner_locals f args kwargs)
             false false Hc).
  cbn [fst snd].
  assert (Hres : match exit_check bp false with
                 | Returned => Value (fn_call (inner_func f) args kwargs)
                 | Raised e => Raises e
                 | Exited => Exits
                 end
                 = if arg_exit (core.args fb) then Exits
                   else Value (fn_call func args kwargs)).
  { unfold exit_check. rewrite orb_false_r. subst bp. simpl.
    by destruct (arg_exit (core.args fb)). }
  rewrite Hres.
  eexists _, _. split; [done|]. split; [reflexivity|]. split.
  - rewrite !elem_of_app, list_elem_of_singleton. auto.
  - unfold breaks_at. cbn [heap].
    rewrite list_lookup_insert_eq by by eapply lookup_lt_Some.
    done.
Qed.

Lemma decorate_then_call_witness :
  ∃ w1 f w2 events,
    func_breakpoint_call 0%nat (mkFunction "f" (λ _ _, VInt 5))
      (perform_all empty_world
         [Decorator
            {| arg_tags := ["dbg"]; arg_activate_tags := ActivateBool true;
               arg_activate := false; arg_max_usage := Some 10;
               arg_exit := false; arg_log := None |}])
    = Some (w1, f) ∧
    inner_call true f [VInt 1] [] w1 = Some (w2, events, Value (VInt 5)) ∧
    Embed ∈ events.
Proof.
  destruct (decorate_then_call
              [Decorator
                 {| arg_tags := ["dbg"];
                    arg_activate_tags := ActivateBool true;
                    arg_activate := false; arg_max_usage := Some 10;
                    arg_exit := false; arg_log := None |}]
              0%nat (mkFunction "f" (λ _ _, VInt 5))
              {| core.args :=
                   {| arg_tags := ["dbg"];
                      arg_activate_tags := ActivateBool true;
                      arg_activate := false; arg_max_usage := Some 10;
                      arg_exit := false; arg_log := None |};
                 breakpoint := None |}
              [VInt 1] [] eq_refl eq_refl)
    as (w1 & f & w2 & events & H1 & H2 & H3 & _).
  - discriminate.
  - right. exists 10. split; [reflexivity|lia].
  - exists w1, f, w2, events. split; [exact H1|]. split; [exact H2|exact H3].
Defined.

(** ** A string given as [tags] *)

Lemma chars_length_one s (tag : string) :
  tag ∈ chars s → String.length tag = 1%nat.
Proof.
  induction s as [|c s IH]; simpl.
  - by rewrite elem_of_nil.
  - rewrite elem_of_cons. intros [->|Hin]; [done|by apply IH].
Qed.

(** A Breakpoint whose [tags] is the string [s], not activating its own
    tags and not always active, checks the characters of [s]: an unforced
    call after [activate_breakpoint([s])] does not go for the console
    unless [s] is a single character, while after
    [activate_breakpoint(s)], or the activation of any one character of
    [s], it does as the quota allows. *)
Theorem string_tags_are_characters (s : string) (a : init_args)
    (ipython : bool) (me : addr) (local_vars : dict) (exit_now : bool) :
  arg_tags a = chars s →
  arg_activate_tags a = ActivateBool false →
  arg_activate a = false →
  let bp := (Breakpoint_init a []).2 in
  let armed :=
    arg_max_usage a = None ∨ ∃ m, arg_max_usage a = Some m ∧ 0 < m in
  (attempted
     (break_here ipython (activate_breakpoint [s] []).2 me bp local_vars
        false exit_now)
   ↔ String.length s = 1%nat ∧ armed) ∧
  (∀ tag, tag ∈ chars s →
     (attempted
        (break_here ipython (activate_breakpoint [tag] []).2 me bp
           local_vars false exit_now)
      ↔ armed)) ∧
  (s ≠ EmptyString →
   (attempted
      (break_here ipython (activate_breakpoint (chars s) []).2 me bp
         local_vars false exit_now)
    ↔ armed)).
Proof.
  intros Htags Hact Hactive bp armed.
  assert (Hat : ∀ L,
            attempted (break_here ipython L me bp local_vars false exit_now)
            ↔ (∃ tag, tag ∈ chars s ∧ tag ∈ L) ∧ armed).
  { intros L. rewrite attempted_iff, andb_true_iff, wanted_spec, quota_ok_spec.
    subst bp armed. simpl. rewrite Htags, Hactive. naive_solver. }
  split_and!.
  - rewrite Hat. simpl. split.
    + intros [(tag & Hin & Hs) Ha]. split; [|done].
      apply list_elem_of_singleton in Hs. subst tag.
      by eapply chars_length_one.
    + intros [Hlen Ha]. split; [|done]. exists s.
      split; [|by apply list_elem_of_singleton].
      destruct s as [|c [|c' s']]; simpl in Hlen; try done. by left.
  - intros tag Hin. rewrite Hat. simpl. split; [tauto|].
    intros Ha. split; [|done]. exists tag.
    split; [done|by apply list_elem_of_singleton].
  - intros Hne. rewrite Hat. simpl. split; [tauto|].
    intros Ha. split; [|done].
    destruct s as [|c s']; [done|]. exists (String c EmptyString).
    simpl. split; by left.
Qed.

Lemma string_tags_are_characters_witness :
  ¬ attempted
      (break_here true (activate_breakpoint ["debug"] []).2 0%nat
         (Breakpoint_init
            {| arg_tags := chars "debug";
               arg_activate_tags := ActivateBool false;
               arg_activate := false; arg_max_usage := Some 10;
               arg_exit := false; arg_log := None |} []).2
         [] false false).
Proof.
  destruct (string_tags_are_characters "debug"
              {| arg_tags := chars "debug";
                 arg_activate_tags := ActivateBool false;
                 arg_activate := false; arg_max_usage := Some 10;
                 arg_exit := false; arg_log := None |}
              true 0%nat [] false eq_refl eq_refl eq_refl) as (H & _).
  intros Ha. apply H in Ha as [Hlen _]. discriminate Hlen.
Defined.

(** ** Tags that are the global list *)

(** A Breakpoint built on the list that [activate_breakpoint] returns
    follows the activations that come after it: with no tag active when
    it is constructed it has no tags, and once a tag is activated it has
    that tag and its unforced call opens the console.  Built on a list of
    its own with the same contents, it stays without tags. *)
Example tags_aliasing_the_global_list :
  let on_global :=
    {| arg_tags := ActiveBreakpoints;
       arg_activate_tags := ActivateBool false; arg_activate := false;
       arg_max_usage := Some 10; arg_exit := false; arg_log := None |} in
  let on_copy :=
    {| arg_tags := Own [];
       arg_activate_tags := ActivateBool false; arg_activate := false;
       arg_max_usage := Some 10; arg_exit := false; arg_log := None |} in
  let program a :=
    [Activate (Own []); Construct a; Activate (Own ["x"]);
     Fire true 0%nat [] false false] in
  breaks_at 0%nat (perform_all empty_world (program on_global)) = Some 1 ∧
  breaks_at 0%nat (perform_all empty_world (program on_copy)) = Some 0.
Proof. split; reflexivity. Qed.
